(** * faust: consumer offset tracking, commit advancement and changelog tables

    A shallow embedding of [faust/transport/base.py] (the base [Consumer]) and
    of [faust/tables.py] (the changelog-mirrored [Table]), with the properties
    of the offset-commit core stated and proved over it.

    Python objects that are mutated in place become fields of an explicit
    state record that every method threads; a method that can raise returns
    a [result].  Code is modelled sequentially: the interleaving of
    coroutines at [await] points is outside the model, so [_commit_mutex]
    does not appear. *)

From stdpp Require Import base decidable option list sorting countable gmap strings.
From Stdlib Require Import ZArith Lia Ascii.

Local Open Scope Z_scope.

(** ** Python runtime vocabulary *)

Module py.

(** Exceptions that the modelled code can raise.  [DriverError] stands for
    whatever a broker driver raises from its commit call. *)
Inductive exn : Type :=
| StopIteration
| IndexError
| KeyError
| ValueError
| AttributeError
| DriverError (what : string).

(** How a call ends: with a value, or with a raised exception. *)
Inductive result (A : Type) : Type :=
| Returned (a : A)
| Raised (e : exn).
Arguments Returned {A} a.
Arguments Raised {A} e.

(** A method of an object whose attributes are [S]: it runs on the
    attributes, leaves them changed, and returns or raises.  What it
    changed before raising stays changed. *)
Definition Method (S A : Type) : Type := S → S * result A.

Global Instance Method_ret {S} : MRet (Method S) := λ A a s, (s, Returned a).

Global Instance Method_bind {S} : MBind (Method S) := λ A B f m s,
  match m s with
  | (s', Returned a) => f a s'
  | (s', Raised e) => (s', Raised e)
  end.

Definition ret {S A} (a : A) : Method S A := mret a.
Definition raise {S A} (e : exn) : Method S A := λ s, (s, Raised e).
Definition gets {S A} (f : S → A) : Method S A := λ s, (s, Returned (f s)).
Definition modify {S} (f : S → S) : Method S unit := λ s, (f s, Returned tt).
Definition lift {S A} (r : result A) : Method S A := λ s, (s, r).

(** [for x in xs: acc = body(x, acc)]. *)
Fixpoint for_each {S A B} (xs : list A) (body : A → B → Method S B)
    (acc : B) : Method S B :=
  match xs with
  | [] => ret acc
  | x :: xs' => acc' ← body x acc; for_each xs' body acc'
  end.

(** [bool(n)] for an [int]. *)
Definition bool_of_int (n : Z) : bool := negb (n =? 0).

(** [bool(l)] for a [list]. *)
Definition bool_of_list {A} (l : list A) : bool :=
  match l with [] => false | _ :: _ => true end.

(** [l.sort()] on a list of [int]. *)
Definition sort (l : list Z) : list Z := merge_sort Z.le l.

(** [l[-1]]. *)
Definition last_item {A} (l : list A) : result A :=
  match last l with
  | Some x => Returned x
  | None => Raised IndexError
  end.

(** [next(it)] on an iterator whose remaining items are [it]. *)
Definition next {A} (it : list A) : result A :=
  match it with
  | x :: _ => Returned x
  | [] => Raised StopIteration
  end.

(** A [dict] keeps its keys in insertion order, and iterating it visits
    them in that order: an association list with one entry per key. *)
Section dict.
Context {K V : Type} `{EqDecision K}.

Fixpoint dict_get (k : K) (d : list (K * V)) : option V :=
  match d with
  | [] => None
  | (k', v) :: d' => if decide (k = k') then Some v else dict_get k d'
  end.

(** [d[k] = v]: replaces the value in place when [k] is a key, and adds
    the entry at the end otherwise. *)
Fixpoint dict_set (k : K) (v : V) (d : list (K * V)) : list (K * V) :=
  match d with
  | [] => [(k, v)]
  | (k', v') :: d' =>
      if decide (k = k') then (k, v) :: d' else (k', v') :: dict_set k v d'
  end.

(** [iter(d)]: the keys, in insertion order. *)
Definition dict_keys (d : list (K * V)) : list K := d.*1.

(** The well-formedness of a [dict]: no key occurs twice. *)
Definition dict_wf (d : list (K * V)) : Prop := NoDup (dict_keys d).
End dict.

End py.
Export py.

(** ** faust.utils.functional *)

Module functional.

(** Modelled from the spec: [consecutive_numbers] of
    [faust/utils/functional.py], which is not among the sources.  It yields
    the runs of the sequence in which every element is its predecessor plus
    one; the first run it yields is the committable prefix of section 4.2,
    the longest prefix [a1, ..., ak] with [a(i+1) = a(i) + 1]. *)
Fixpoint consecutive_numbers (it : list Z) : list (list Z) :=
  match it with
  | [] => []
  | a :: it' =>
      match head it', consecutive_numbers it' with
      | Some b, run :: runs =>
          if decide (b = a + 1) then (a :: run) :: runs
          else [a] :: run :: runs
      | _, _ => [[a]]
      end
  end.

End functional.
Export functional.

(** ** faust.transport.base *)

Module transport.

(** [TopicPartition(topic, partition)]: a named tuple, compared and hashed
    by both fields. *)
Record TopicPartition : Type := mkTopicPartition {
  topic : string;
  partition : Z;
}.

Global Instance TopicPartition_eq_dec : EqDecision TopicPartition.
Proof. solve_decision. Defined.

Global Instance TopicPartition_countable : Countable TopicPartition.
Proof.
  refine (inj_countable' (λ tp, (topic tp, partition tp))
                         (λ p, mkTopicPartition p.1 p.2) _).
  by intros [].
Defined.

(** The part of a [Message] that the consumer reads. *)
Record Message : Type := mkMessage {
  msg_topic : string;
  msg_partition : Z;
  msg_key : option string;
  msg_value : option string;
}.

(** [MessageRef]: the weak reference to [ref_message] together with the
    attributes set by [__init__].  Its callback is always the consumer's
    [on_message_ready]. *)
Record MessageRef : Type := mkMessageRef {
  ref_message : Message;
  ref_tp : TopicPartition;
  ref_offset : Z;
  ref_consumer_id : Z;
}.

(** A key of the [_autoack] mapping.  The class annotates the mapping as
    keyed by topic name ([MutableMapping[str, bool]], "Autoack flag by
    topic"); [on_message_ready] indexes it with a [TopicPartition].  Both
    kinds of key can therefore live in the same Python dictionary, and a
    string never equals a named tuple. *)
Inductive AutoackKey : Type :=
| ByTopic (name : string)
| ByTP (tp : TopicPartition).

Global Instance AutoackKey_eq_dec : EqDecision AutoackKey.
Proof. solve_decision. Defined.

Global Instance AutoackKey_countable : Countable AutoackKey.
Proof.
  refine (inj_countable'
            (λ k, match k with ByTopic n => inl n | ByTP tp => inr tp end)
            (λ x, match x with inl n => ByTopic n | inr tp => ByTP tp end) _).
  by intros [].
Defined.

(** What a concrete transport supplies: the methods that the base class
    leaves to raise [NotImplementedError], and the broker's [_commit]. *)
Class ConsumerDriver : Type := {
  Meta : Type;
  OffsetAndMetadata : Type;
  DriverTP : Type;
  DriverState : Type;
  _get_topic_meta : string → Meta;
  _new_topicpartition : string → Z → DriverTP;
  _new_offsetandmetadata : Z → Meta → OffsetAndMetadata;
  _commit : list (TopicPartition * OffsetAndMetadata) →
            DriverState → DriverState * result unit;
}.

Section consumer.
Context `{ConsumerDriver}.

(** What the consumer does to the world outside its own attributes, in
    the order in which it does it. *)
Inductive Effect : Type :=
| SensorMessageIn (consumer_id : Z) (tp : DriverTP) (offset : Z)
                  (message : Message)
| CallbackInvoked (message : Message)
| DriverCommit (offsets : list (TopicPartition * OffsetAndMetadata)).

(** The attributes of a [Consumer] that its methods read and write.
    [_recently_acked] records the arguments of the [put] calls made on
    the queue, [driver] is the broker session behind [_commit], and
    [effects] the log of outside calls. *)
Record Consumer : Type := mkConsumer {
  id : Z;
  autoack : bool;
  _autoack : gmap AutoackKey bool;
  _dirty_messages : list MessageRef;
  _acked : list (TopicPartition * list Z);
  _current_offset : gmap TopicPartition Z;
  _recently_acked : list (TopicPartition * Z);
  driver : DriverState;
  effects : list Effect;
}.

(** [Consumer.__init__]. *)
Definition Consumer_init (new_id : Z) (autoack_arg : bool)
    (session : DriverState) : Consumer :=
  {| id := new_id; autoack := autoack_arg; _autoack := ∅;
     _dirty_messages := []; _acked := []; _current_offset := ∅;
     _recently_acked := []; driver := session; effects := [] |}.

Definition set_autoack_map (m : gmap AutoackKey bool) (s : Consumer) :=
  {| id := id s; autoack := autoack s; _autoack := m;
     _dirty_messages := _dirty_messages s; _acked := _acked s;
     _current_offset := _current_offset s;
     _recently_acked := _recently_acked s; driver := driver s;
     effects := effects s |}.

Definition set_dirty_messages (l : list MessageRef) (s : Consumer) :=
  {| id := id s; autoack := autoack s; _autoack := _autoack s;
     _dirty_messages := l; _acked := _acked s;
     _current_offset := _current_offset s;
     _recently_acked := _recently_acked s; driver := driver s;
     effects := effects s |}.

Definition set_acked (d : list (TopicPartition * list Z)) (s : Consumer) :=
  {| id := id s; autoack := autoack s; _autoack := _autoack s;
     _dirty_messages := _dirty_messages s; _acked := d;
     _current_offset := _current_offset s;
     _recently_acked := _recently_acked s; driver := driver s;
     effects := effects s |}.

Definition set_current_offset (m : gmap TopicPartition Z) (s : Consumer) :=
  {| id := id s; autoack := autoack s; _autoack := _autoack s;
     _dirty_messages := _dirty_messages s; _acked := _acked s;
     _current_offset := m;
     _recently_acked := _recently_acked s; driver := driver s;
     effects := effects s |}.

Definition set_recently_acked (q : list (TopicPartition * Z)) (s : Consumer) :=
  {| id := id s; autoack := autoack s; _autoack := _autoack s;
     _dirty_messages := _dirty_messages s; _acked := _acked s;
     _current_offset := _current_offset s;
     _recently_acked := q; driver := driver s;
     effects := effects s |}.

Definition set_driver (d : DriverState) (s : Consumer) :=
  {| id := id s; autoack := autoack s; _autoack := _autoack s;
     _dirty_messages := _dirty_messages s; _acked := _acked s;
     _current_offset := _current_offset s;
     _recently_acked := _recently_acked s; driver := d;
     effects := effects s |}.

Definition log_effect (e : Effect) (s : Consumer) :=
  {| id := id s; autoack := autoack s; _autoack := _autoack s;
     _dirty_messages := _dirty_messages s; _acked := _acked s;
     _current_offset := _current_offset s;
     _recently_acked := _recently_acked s; driver := driver s;
     effects := effects s ++ [e] |}.

(** The methods of the consumer. *)
Abbreviation M := (Method Consumer).

(** [self._acked[tp]] on the [defaultdict(list)]: a missing key is
    entered with a new empty list. *)
Definition acked_getitem (tp : TopicPartition) : M (list Z) := λ s,
  match dict_get tp (_acked s) with
  | Some l => (s, Returned l)
  | None => (set_acked (dict_set tp [] (_acked s)) s, Returned [])
  end.

(** [self._autoack[k]] on the [defaultdict(lambda: autoack)]. *)
Definition autoack_getitem (k : AutoackKey) : M bool := λ s,
  match _autoack s !! k with
  | Some b => (s, Returned b)
  | None => (set_autoack_map (<[k := autoack s]> (_autoack s)) s,
             Returned (autoack s))
  end.

(** [await self._on_message_in(_id, tp, offset, message)]: the sensor
    hook of the application. *)
Definition _on_message_in (_id : Z) (tp : DriverTP) (offset : Z)
    (message : Message) : M unit :=
  modify (log_effect (SensorMessageIn _id tp offset message)).

Definition track_message (message : Message) (offset : Z) : M unit :=
  _id ← gets id;
  let tp := _new_topicpartition (msg_topic message) (msg_partition message) in
  modify (λ s, set_dirty_messages
            (_dirty_messages s ++
               [mkMessageRef message
                  (mkTopicPartition (msg_topic message) (msg_partition message))
                  offset (id s)]) s);;
  _on_message_in _id tp offset message.

(** The list object bound to [acked_for_tp] is the one stored in
    [_acked]: appending to it and sorting it change the stored list. *)
Definition ack (tp : TopicPartition) (offset : Z) : M unit :=
  acked_for_tp ← acked_getitem tp;
  modify (λ s, set_acked
            (dict_set tp (sort (acked_for_tp ++ [offset])) (_acked s)) s);;
  modify (λ s, set_recently_acked (_recently_acked s ++ [(tp, offset)]) s).

Definition on_message_ready (ref : MessageRef) : M unit :=
  let tp := ref_tp ref in
  flag ← autoack_getitem (ByTP tp);
  if (flag : bool) then ack tp (ref_offset ref) else ret tt.

Definition _should_commit (s : Consumer) (tp : TopicPartition)
    (offset : Z) : bool :=
  match _current_offset s !! tp with
  | None => true
  | Some current => bool_of_int offset && (current <? offset)
  end.

Definition _new_offset (tp : TopicPartition) : M (option Z) :=
  acked ← acked_getitem tp;
  if bool_of_list acked then
    batch ← lift (next (consecutive_numbers acked));
    modify (λ s, set_acked
              (dict_set tp (drop (length batch) acked) (_acked s)) s);;
    highest ← lift (last_item batch);
    ret (Some highest)
  else ret None.

Definition _do_commit (tp : TopicPartition) (offset : Z) (meta : Meta)
    : M unit := λ s,
  let offsets := [(tp, _new_offsetandmetadata offset meta)] in
  let '(session, r) := _commit offsets (driver s) in
  (set_driver session (log_effect (DriverCommit offsets) s), r).

Definition maybe_commit : M bool :=
  tps ← gets (λ s, dict_keys (_acked s));
  for_each tps (λ tp did_commit,
    offset ← _new_offset tp;
    match offset with
    | Some offset =>
        should ← gets (λ s, _should_commit s tp offset);
        if (should : bool) then
          modify (λ s, set_current_offset
                    (<[tp := offset]> (_current_offset s)) s);;
          let meta := _get_topic_meta (topic tp) in
          _do_commit tp offset meta;;
          ret true
        else ret did_commit
    | None => ret did_commit
    end) false.

Definition on_task_error : M unit :=
  flag ← gets autoack;
  if (flag : bool) then maybe_commit;; ret tt else ret tt.

(** The state of a task that never returns: still looping, or ended by
    an exception that nothing caught. *)
Inductive Task : Type :=
| Running
| Failed (e : exn).

(** [_commit_handler], observed after [ticks] passes of its [while 1]
    loop.  The calls of [asyncio.sleep] leave the attributes alone. *)
Fixpoint _commit_handler (ticks : nat) (s : Consumer) : Consumer * Task :=
  match ticks with
  | O => (s, Running)
  | S ticks' =>
      match maybe_commit s with
      | (s', Returned _) => _commit_handler ticks' s'
      | (s', Raised e) => (s', Failed e)
      end
  end.

End consumer.

End transport.

(** ** faust.tables *)

Module tables.

(** [str.format] restricted to what the changelog template needs:
    replacement fields [{name}] without conversion or format spec.  The
    field names are resolved by [resolve]; the text of a field that is
    being read is kept in [field]. *)
Fixpoint format_from (resolve : string → result string) (template : string)
    (field : option string) : result string :=
  match template, field with
  | EmptyString, None => Returned EmptyString
  | EmptyString, Some _ => Raised ValueError
  | String c rest, None =>
      if decide (c = "{"%char) then format_from resolve rest (Some EmptyString)
      else match format_from resolve rest None with
           | Returned out => Returned (String c out)
           | Raised e => Raised e
           end
  | String c rest, Some name =>
      if decide (c = "}"%char) then
        match resolve name, format_from resolve rest None with
        | Returned v, Returned out => Returned (v +:+ out)
        | Raised e, _ => Raised e
        | _, Raised e => Raised e
        end
      else format_from resolve rest (Some (name +:+ String c EmptyString))
  end.

Definition format (resolve : string → result string) (template : string)
    : result string :=
  format_from resolve template None.

(** [str(x)] for an optional string attribute. *)
Definition str_of_optional (x : option string) : string :=
  match x with Some v => v | None => "None" end.

(** A [Topic] description, as far as tables use it. *)
Record Topic : Type := mkTopic { topic_name : string }.

Section table.
Context {K V : Type} `{Countable K}.

(** Opening the backing store of a table ([StateStore(url=None, app=app)]
    or [stores.by_url(url)(url, app, loop=...)]): the contents found
    under the URL. *)
Variable open_store : option string → gmap K V.

(** The application a table is bound to.  [pending] holds the messages
    that [send_soon] has accepted, oldest first, and [_tables] the names
    of the tables registered with [add_table]. *)
Record App : Type := mkApp {
  app_id : string;
  store : string;
  pending : list (Topic * K * option V);
  _tables : list (option string);
}.

(** The attributes of a [Table].  [StateStore] is the class attribute
    ([None] unless a subclass sets it), [default] the value that the
    default factory makes, and [changelog_topic] is set by [on_bind]. *)
Record Table : Type := mkTable {
  table_name : option string;
  default : option V;
  _store : option string;
  StateStore : bool;
  data : gmap K V;
  changelog_topic : option Topic;
}.

(** A table and the application object it shares with everything else
    that is bound to the application. *)
Record World : Type := mkWorld {
  app : App;
  table : Table;
}.

Abbreviation T := (Method World).

Definition set_data (d : gmap K V) (w : World) : World :=
  {| app := app w;
     table := {| table_name := table_name (table w);
                 default := default (table w);
                 _store := _store (table w);
                 StateStore := StateStore (table w);
                 data := d;
                 changelog_topic := changelog_topic (table w) |} |}.

Definition set_changelog_topic (t : Topic) (w : World) : World :=
  {| app := app w;
     table := {| table_name := table_name (table w);
                 default := default (table w);
                 _store := _store (table w);
                 StateStore := StateStore (table w);
                 data := data (table w);
                 changelog_topic := Some t |} |}.

(** Modelled from the spec: [App.send_soon] of [faust/app.py], which is
    not among the sources.  The message is accepted into the producer
    queue before the call returns; the transmission happens later. *)
Definition send_soon (t : Topic) (key : K) (value : option V) : T unit :=
  modify (λ w,
    {| app := {| app_id := app_id (app w); store := store (app w);
                 pending := pending (app w) ++ [(t, key, value)];
                 _tables := _tables (app w) |};
       table := table w |}).

(** [app.add_table(self)], of [faust/app.py]: the table is entered in
    the application's registry. *)
Definition add_table : T unit :=
  modify (λ w,
    {| app := {| app_id := app_id (app w); store := store (app w);
                 pending := pending (app w);
                 _tables := _tables (app w) ++ [table_name (table w)] |};
       table := table w |}).

(** [self.changelog_topic]: an attribute that exists once [on_bind] has
    run. *)
Definition get_changelog_topic : T Topic := λ w,
  match changelog_topic (table w) with
  | Some t => (w, Returned t)
  | None => (w, Raised AttributeError)
  end.

Definition on_key_set (key : K) (value : V) : T unit :=
  t ← get_changelog_topic;
  send_soon t key (Some value).

Definition on_key_del (key : K) : T unit :=
  t ← get_changelog_topic;
  send_soon t key None.

Definition _changelog_topic_name : string :=
  "{0.app.id}-{0.table_name}-changelog".

(** The attribute paths that a template formatted with the table as its
    argument 0 can name. *)
Definition table_field (w : World) (path : string) : result string :=
  if decide (path = "0.app.id") then Returned (app_id (app w))
  else if decide (path = "0.table_name")
       then Returned (str_of_optional (table_name (table w)))
       else Raised AttributeError.

(** Modelled from the spec: [Stream.derive_topic] of [faust/streams.py],
    which is not among the sources.  The changelog topic is derived from
    the application id and the table name: the name template is
    formatted with the table as its argument. *)
Definition derive_topic (name : string) : T Topic := λ w,
  match format (table_field w) name with
  | Returned n => (w, Returned (mkTopic n))
  | Raised e => (w, Raised e)
  end.

Definition on_bind : T unit :=
  has_state_store ← gets (λ w, StateStore (table w));
  (if (has_state_store : bool) then
     modify (set_data (open_store None))
   else
     url ← gets (λ w, match _store (table w) with
                      | Some u => if decide (u = "") then store (app w) else u
                      | None => store (app w)
                      end);
     modify (set_data (open_store (Some url))));;
  t ← derive_topic _changelog_topic_name;
  modify (set_changelog_topic t);;
  add_table.

(** Modelled from the spec: [ManagedUserDict.__setitem__] of
    [faust/utils/collections.py], which is not among the sources.  The
    underlying map is updated, then the [on_key_set] hook schedules the
    changelog send. *)
Definition setitem (key : K) (value : V) : T unit :=
  modify (λ w, set_data (<[key := value]> (data (table w))) w);;
  on_key_set key value.

(** Modelled from the spec: [ManagedUserDict.__delitem__] of
    [faust/utils/collections.py], which is not among the sources.  The
    entry is removed from the underlying map, then the [on_key_del] hook
    schedules the tombstone.  Deleting a key that is absent raises
    [KeyError], as [del d[k]] does. *)
Definition delitem (key : K) : T unit :=
  present ← gets (λ w, bool_decide (is_Some (data (table w) !! key)));
  if (present : bool) then
    modify (λ w, set_data (delete key (data (table w))) w);;
    on_key_del key
  else raise KeyError.

(** [Table.__missing__]: [value = self[key] = self.default()]. *)
Definition __missing__ (key : K) : T V :=
  factory ← gets (λ w, default (table w));
  match (factory : option V) with
  | Some value => setitem key value;; ret value
  | None => raise KeyError
  end.

(** Modelled from the spec: [__getitem__] of the mapping, which falls
    back on [__missing__] for an absent key. *)
Definition getitem (key : K) : T V :=
  found ← gets (λ w, data (table w) !! key);
  match (found : option V) with
  | Some value => ret value
  | None => __missing__ key
  end.

End table.

End tables.

(** ** The vocabulary of the properties *)

Module props.
Import transport.

(** Section 4.2, in the spec's words: in [p], [a(i+1) = a(i) + 1]. *)
Definition consecutive (p : list Z) : Prop :=
  ∀ (i : nat) (a b : Z), p !! i = Some a → p !! S i = Some b → b = a + 1.

(** Section 4.2, in the spec's words: [p] is the committable prefix of
    [acked], the longest prefix of [acked] that is consecutive. *)
Definition committable_prefix (acked p : list Z) : Prop :=
  p `prefix_of` acked ∧ consecutive p ∧
  ∀ q, q `prefix_of` acked → consecutive q → (length q ≤ length p)%nat.

Section consumer.
Context `{ConsumerDriver}.

(** Whether an outside call is a driver commit that names [tp]. *)
Definition commits_tp (tp : TopicPartition) (e : Effect) : bool :=
  match e with
  | DriverCommit offsets => bool_decide (tp ∈ offsets.*1)
  | _ => false
  end.

(** The driver commits issued for [tp] among the outside calls [es]. *)
Definition commits_to (tp : TopicPartition) (es : list Effect) : list Effect :=
  List.filter (commits_tp tp) es.

(** The rule of [should_commit] as the spec words it: the offset is
    above [CurrentOffset(tp)], or [tp] has never been committed and the
    offset is above 0. *)
Definition spec_should_commit (s : Consumer) (tp : TopicPartition)
    (offset : Z) : Prop :=
  (∃ current, _current_offset s !! tp = Some current ∧ current < offset) ∨
  (_current_offset s !! tp = None ∧ 0 < offset).

(** The calls that reach a consumer within one session. *)
Inductive Call : Type :=
| CallTrackMessage (message : Message) (offset : Z)
| CallOnMessageReady (ref : MessageRef)
| CallAck (tp : TopicPartition) (offset : Z)
| CallMaybeCommit
| CallOnTaskError.

(** One call; the caller goes on with the consumer whether the call
    returned or raised. *)
Definition call (c : Call) (s : Consumer) : Consumer :=
  match c with
  | CallTrackMessage message offset => (track_message message offset s).1
  | CallOnMessageReady ref => (on_message_ready ref s).1
  | CallAck tp offset => (ack tp offset s).1
  | CallMaybeCommit => (maybe_commit s).1
  | CallOnTaskError => (on_task_error s).1
  end.

Definition session (calls : list Call) (s : Consumer) : Consumer :=
  foldl (λ s c, call c s) s calls.

(** No [CurrentOffset] that is set in [s] is lower, or unset, in [s']. *)
Definition offsets_le (s s' : Consumer) : Prop :=
  ∀ tp current, _current_offset s !! tp = Some current →
    ∃ current', _current_offset s' !! tp = Some current' ∧ current ≤ current'.

(** From [s] to [s'] the outside calls have only grown, and by no driver
    commit for [tp]. *)
Definition no_commit_for (tp : TopicPartition) (s s' : Consumer) : Prop :=
  ∃ delta, effects s' = effects s ++ delta ∧ commits_to tp delta = [].

(** From [s] to [s'] nothing has happened to [tp]: same ack list, same
    [CurrentOffset], no driver commit. *)
Definition untouched (tp : TopicPartition) (s s' : Consumer) : Prop :=
  dict_get tp (_acked s') = dict_get tp (_acked s) ∧
  _current_offset s' !! tp = _current_offset s !! tp ∧
  no_commit_for tp s s'.

(** If the ack dictionary of [s] has no key twice, neither has that of
    [s']. *)
Definition keeps_wf (s s' : Consumer) : Prop :=
  dict_wf (_acked s) → dict_wf (_acked s').

(** The body of the loop of [maybe_commit]. *)
Definition commit_body (tp : TopicPartition) (did_commit : bool)
    : Method Consumer bool :=
  offset ← _new_offset tp;
  match offset with
  | Some offset =>
      should ← gets (λ s, _should_commit s tp offset);
      if (should : bool) then
        modify (λ s, set_current_offset
                  (<[tp := offset]> (_current_offset s)) s);;
        let meta := _get_topic_meta (topic tp) in
        _do_commit tp offset meta;;
        ret true
      else ret did_commit
  | None => ret did_commit
  end.

(** The state in which a pass leaves the consumer when it commits. *)
Definition committed_state (tp : TopicPartition) (rest : list Z) (ak : Z)
    (s : Consumer) : Consumer :=
  let offsets :=
    [(tp, _new_offsetandmetadata ak (_get_topic_meta (topic tp)))] in
  set_driver (_commit offsets (driver s)).1
    (log_effect (DriverCommit offsets)
       (set_current_offset (<[tp := ak]> (_current_offset s))
          (set_acked (dict_set tp rest (_acked s)) s))).

(** The four ways through one pass. *)
Inductive pass_outcome (tp : TopicPartition) (acc : bool) (s : Consumer) : Consumer * result bool → Prop :=
| pass_untracked :
    dict_get tp (_acked s) = None →
    pass_outcome tp acc s
      (set_acked (dict_set tp [] (_acked s)) s, Returned acc)
| pass_empty :
    dict_get tp (_acked s) = Some [] →
    pass_outcome tp acc s (s, Returned acc)
| pass_skip l p rest ak :
    dict_get tp (_acked s) = Some l → l ≠ [] →
    committable_prefix l p → last p = Some ak → l = p ++ rest →
    _should_commit s tp ak = false →
    pass_outcome tp acc s
      (set_acked (dict_set tp rest (_acked s)) s, Returned acc)
| pass_commit l p rest ak :
    dict_get tp (_acked s) = Some l → l ≠ [] →
    committable_prefix l p → last p = Some ak → l = p ++ rest →
    _should_commit s tp ak = true →
    pass_outcome tp acc s
      (committed_state tp rest ak s,
       match
         (_commit
            [(tp, _new_offsetandmetadata ak (_get_topic_meta (topic tp)))]
            (driver s)).2
       with
       | Returned _ => Returned true
       | Raised e => Raised e
       end).


(** [P] holds of [s'] whenever it holds of [s]. *)
Definition keeps (P : Consumer → Prop) (s s' : Consumer) : Prop := P s → P s'.

(** Every ack list is in ascending order. *)
Definition all_sorted (s : Consumer) : Prop :=
  ∀ tp l, dict_get tp (_acked s) = Some l → Sorted Z.le l.

(** Every offset that waits in an ack list, and every [CurrentOffset], is
    an offset that [ack] was called with for that topic-partition. *)
Definition all_acked (s : Consumer) : Prop :=
  (∀ tp l o, dict_get tp (_acked s) = Some l → o ∈ l →
             (tp, o) ∈ _recently_acked s) ∧
  (∀ tp current, _current_offset s !! tp = Some current →
                 (tp, current) ∈ _recently_acked s).

(** From [s] to [s'] the attributes that the commit pass has no business
    with are the same. *)
Definition same_bookkeeping (s s' : Consumer) : Prop :=
  id s' = id s ∧ autoack s' = autoack s ∧ _autoack s' = _autoack s ∧
  _dirty_messages s' = _dirty_messages s ∧
  _recently_acked s' = _recently_acked s.


(** From [s] to [s'] the outside calls have only been added to. *)
Definition effects_grow (s s' : Consumer) : Prop :=
  ∃ delta, effects s' = effects s ++ delta.

(** The references that the [track_message] calls among [calls] make, for
    the consumer with id [consumer_id]. *)
Definition tracked_refs (consumer_id : Z) (calls : list Call)
    : list MessageRef :=
  omap (λ c, match c with
             | CallTrackMessage message offset =>
                 Some (mkMessageRef message
                         (mkTopicPartition (msg_topic message)
                            (msg_partition message))
                         offset consumer_id)
             | _ => None
             end) calls.

(** [_new_offset(tp)] called [n] times in a row, with what it returned. *)
Fixpoint new_offset_times (n : nat) (tp : TopicPartition)
    : Method Consumer (list (option Z)) :=
  match n with
  | O => ret []
  | Datatypes.S n' =>
      offset ← _new_offset tp;
      offsets ← new_offset_times n' tp;
      ret (offset :: offsets)
  end.

End consumer.
End props.

(** ** A scripted broker, for running the model *)

Module scripted.
Import transport.

(** A broker session that refuses or accepts the commits it receives as
    [refusals] says, one entry per commit ([true] refuses), accepts once
    the script is used up, and keeps what it accepted. *)
Record Broker : Type := mkBroker {
  refusals : list bool;
  accepted : list (TopicPartition * Z);
}.

Definition broker_commit (offsets : list (TopicPartition * Z)) (b : Broker)
    : Broker * result unit :=
  match refusals b with
  | true :: script =>
      ({| refusals := script; accepted := accepted b |},
       Raised (DriverError "commit failed"))
  | false :: script =>
      ({| refusals := script; accepted := accepted b ++ offsets |},
       Returned tt)
  | [] =>
      ({| refusals := []; accepted := accepted b ++ offsets |}, Returned tt)
  end.

Global Instance scripted_driver : ConsumerDriver := {|
  Meta := unit;
  OffsetAndMetadata := Z;
  DriverTP := TopicPartition;
  DriverState := Broker;
  _get_topic_meta := λ _, tt;
  _new_topicpartition := mkTopicPartition;
  _new_offsetandmetadata := λ offset _, offset;
  _commit := broker_commit;
|}.

Definition t0 : TopicPartition := mkTopicPartition "t" 0.
Definition a0 : TopicPartition := mkTopicPartition "a" 0.

(** A new consumer with autoack on, on a broker with the given script. *)
Definition fresh (script : list bool) : Consumer :=
  Consumer_init 0 true (mkBroker script []).

(** The ack list of the comment in [_new_offset], with its gap. *)
Definition with_gap : Consumer :=
  set_acked [(t0, [34; 35; 36; 40; 41])] (fresh []).

(** Offset 2 is committed and offset 3 is acked; the broker will refuse
    the next commit and accept the ones after it. *)
Definition before_refusal : Consumer :=
  props.session
    [props.CallAck t0 2; props.CallMaybeCommit; props.CallAck t0 3]
    (fresh [false; true]).

(** Offset 5 is committed, and then the offsets 3 and 4 below it and the
    offset 9 above a gap are acked. *)
Definition late_acks : Consumer :=
  props.session
    [props.CallAck t0 5; props.CallMaybeCommit;
     props.CallAck t0 3; props.CallAck t0 4; props.CallAck t0 9]
    (fresh []).

(** Offsets 1 and 2 were acked and committed: the ack list is empty. *)
Definition drained : Consumer :=
  props.session
    [props.CallAck t0 1; props.CallAck t0 2; props.CallMaybeCommit]
    (fresh []).

(** Offsets 1, 2, 3 are acked on [t0] and nothing is committed. *)
Definition three_acked : Consumer :=
  props.session
    [props.CallAck t0 2; props.CallAck t0 1; props.CallAck t0 3] (fresh []).

(** Offsets 1 and 3 are acked and nothing is committed. *)
Definition one_and_three : Consumer :=
  props.session [props.CallAck t0 1; props.CallAck t0 3] (fresh []).

(** Autoack is on by default and switched off for topic ["a"], under the
    topic name as the annotation of [_autoack] has it. *)
Definition a_switched_off : Consumer :=
  set_autoack_map {[ByTopic "a" := false]} (fresh []).

Definition ref_a7 : MessageRef :=
  mkMessageRef (mkMessage "a" 0 None (Some "payload")) a0 7 0.

Definition message_t : Message := mkMessage "t" 0 (Some "k") (Some "v").

End scripted.

(** ** A table of counters, for running the model *)

Module counters.
Import tables.

(** Every store is found empty. *)
Definition empty_store : option string → gmap string Z := λ _, ∅.

(** The table ["clicks"] of the application ["shop"], before it is bound. *)
Definition unbound : World (K := string) (V := Z) :=
  {| app := {| app_id := "shop"; store := "memory://"; pending := [];
               _tables := [] |};
     table := {| table_name := Some "clicks"; default := Some 0;
                 _store := None; StateStore := false; data := ∅;
                 changelog_topic := None |} |}.

(** The same table once [on_bind] has run. *)
Definition bound : World (K := string) (V := Z) :=
  (on_bind empty_store unbound).1.

(** The table after [table["x"] = 1; table["y"] = 2]. *)
Definition with_x_and_y : World (K := string) (V := Z) :=
  (setitem "y" 2 (setitem "x" 1 bound).1).1.

End counters.

(** Unfolds the plumbing of [Method] so that a method body computes. *)
Ltac run :=
  unfold mbind, Method_bind, ret, mret, Method_ret, raise, gets, modify, lift;
  simpl.

(** * Properties *)

(** ** Dictionaries *)

Section dict_facts.
Context {K V : Type} `{EqDecision K}.
Implicit Types (d : list (K * V)) (k : K) (v : V).

Lemma dict_get_set_eq d k v : dict_get k (dict_set k v d) = Some v.
Proof.
  induction d as [|[k' v'] d IH]; simpl.
  - by rewrite decide_True.
  - destruct (decide (k = k')) as [->|Hne]; simpl.
    + by rewrite decide_True.
    + by rewrite decide_False.
Qed.

Lemma dict_get_set_ne d k k' v :
  k ≠ k' → dict_get k' (dict_set k v d) = dict_get k' d.
Proof.
  intros Hne. induction d as [|[k1 v1] d IH]; simpl.
  - by rewrite decide_False.
  - destruct (decide (k = k1)) as [->|Hne1]; simpl.
    + by rewrite !decide_False.
    + by rewrite IH.
Qed.

Lemma dict_get_None d k : dict_get k d = None ↔ k ∉ dict_keys d.
Proof.
  unfold dict_keys. induction d as [|[k' v'] d IH]; simpl.
  - split; [intros _; apply not_elem_of_nil | done].
  - rewrite not_elem_of_cons. destruct (decide (k = k')) as [->|Hne].
    + split; [done | by intros [? _]].
    + rewrite IH. split; [done | by intros [_ ?]].
Qed.

Lemma dict_get_Some_key d k v : dict_get k d = Some v → k ∈ dict_keys d.
Proof.
  intros Hget. destruct (decide (k ∈ dict_keys d)) as [|Hnot]; [done|].
  apply dict_get_None in Hnot. congruence.
Qed.

Lemma dict_keys_set_present d k v :
  k ∈ dict_keys d → dict_keys (dict_set k v d) = dict_keys d.
Proof.
  unfold dict_keys. induction d as [|[k' v'] d IH]; simpl.
  - by intros ?%elem_of_nil.
  - intros Hin. destruct (decide (k = k')) as [->|Hne]; simpl; [done|].
    f_equal. apply IH. apply elem_of_cons in Hin as [?|?]; done.
Qed.

Lemma dict_keys_set_absent d k v :
  k ∉ dict_keys d → dict_keys (dict_set k v d) = dict_keys d ++ [k].
Proof.
  unfold dict_keys. induction d as [|[k' v'] d IH]; simpl; [done|].
  intros [Hne Hnot]%not_elem_of_cons.
  rewrite decide_False by done. simpl. f_equal. by apply IH.
Qed.

Lemma dict_wf_set d k v : dict_wf d → dict_wf (dict_set k v d).
Proof.
  unfold dict_wf. intros Hwf.
  destruct (decide (k ∈ dict_keys d)) as [Hin|Hnot].
  - by rewrite dict_keys_set_present.
  - rewrite dict_keys_set_absent by done.
    apply NoDup_app. split_and!; [done| |apply NoDup_singleton].
    intros x Hx ->%list_elem_of_singleton. done.
Qed.
End dict_facts.

(** ** Runs of consecutive numbers *)

Section runs.
Import props.

Lemma consecutive_nil : consecutive [].
Proof. intros i a b Ha. by rewrite lookup_nil in Ha. Qed.

Lemma consecutive_singleton a : consecutive [a].
Proof. intros [|i] x y Hx Hy; simpl in *; by rewrite ?lookup_nil in Hy. Qed.

Lemma consecutive_cons a b l :
  consecutive (a :: b :: l) ↔ b = a + 1 ∧ consecutive (b :: l).
Proof.
  split.
  - intros Hc. split.
    + by apply (Hc 0%nat).
    + intros i x y Hx Hy. by apply (Hc (S i)).
  - intros [-> Hc] [|i] x y Hx Hy; simpl in *.
    + congruence.
    + by apply (Hc i).
Qed.

Lemma consecutive_tail a l : consecutive (a :: l) → consecutive l.
Proof.
  destruct l as [|b l]; [intros _; apply consecutive_nil|].
  by intros [_ ?]%consecutive_cons.
Qed.

(** The first run that [consecutive_numbers] yields is the committable
    prefix, and it is not empty. *)
Lemma consecutive_numbers_first (acked : list Z) :
  acked ≠ [] →
  ∃ batch runs rest,
    consecutive_numbers acked = batch :: runs ∧
    acked = batch ++ rest ∧ batch ≠ [] ∧ head batch = head acked ∧
    committable_prefix acked batch.
Proof.
  induction acked as [|a acked IH]; [done|]. intros _.
  destruct acked as [|b acked].
  { exists [a], [], []. split_and!; try done.
    split_and!; [done|apply consecutive_singleton|].
    intros q Hq _. apply prefix_length in Hq. done. }
  destruct IH as (run & runs & rest & Hruns & Happ & Hne & Hhead & Hpre);
    [done|].
  destruct Hpre as (Hprefix & Hcons & Hlongest).
  destruct run as [|b' run]; [done|]. simpl in Hhead.
  injection Hhead as ->.
  change (consecutive_numbers (a :: b :: acked)) with
    (match Some b, consecutive_numbers (b :: acked) with
     | Some b, run :: runs =>
         if decide (b = a + 1) then (a :: run) :: runs
         else [a] :: run :: runs
     | _, _ => [[a]]
     end).
  rewrite Hruns. destruct (decide (b = a + 1)) as [Hb|Hb].
  - exists (a :: b :: run), runs, rest. split_and!; try done.
    { by rewrite Happ. }
    split_and!.
    + by apply prefix_cons.
    + by apply consecutive_cons.
    + intros q Hq Hqc. destruct q as [|x q]; [simpl; lia|].
      pose proof (prefix_cons_inv_2 _ _ _ _ Hq) as Hq'.
      apply consecutive_tail in Hqc.
      specialize (Hlongest q Hq' Hqc). simpl in *. lia.
  - exists [a], ((b :: run) :: runs), (b :: acked). split_and!; try done.
    split_and!.
    + by apply prefix_cons, prefix_nil.
    + apply consecutive_singleton.
    + intros q Hq Hqc. destruct q as [|x q]; [simpl; lia|].
      pose proof (prefix_cons_inv_1 _ _ _ _ Hq) as ->.
      pose proof (prefix_cons_inv_2 _ _ _ _ Hq) as Hq'.
      destruct q as [|y q]; [done|].
      pose proof (prefix_cons_inv_1 _ _ _ _ Hq') as ->.
      apply consecutive_cons in Hqc as [? _]. done.
Qed.

(** There is one committable prefix. *)
Lemma committable_prefix_unique acked p q :
  committable_prefix acked p → committable_prefix acked q → p = q.
Proof.
  intros (Hp & Hpc & Hpl) (Hq & Hqc & Hql).
  pose proof (Hpl q Hq Hqc). pose proof (Hql p Hp Hpc).
  destruct Hp as [rp ->]. destruct Hq as [rq Heq].
  assert (length p = length q) as Hlen by lia.
  by eapply app_inj_1 in Heq as [? _].
Qed.

Lemma last_is_Some {A} (l : list A) : l ≠ [] → ∃ x, last l = Some x.
Proof.
  intros Hne. destruct (last l) as [x|] eqn:Hlast; [by exists x|].
  by apply last_None in Hlast.
Qed.
End runs.

(** ** The consumer *)

Section new_offset.
Import transport props.
Context `{ConsumerDriver}.
Implicit Types (s : Consumer) (tp : TopicPartition).

Lemma acked_getitem_present s tp acked :
  dict_get tp (_acked s) = Some acked →
  acked_getitem tp s = (s, Returned acked).
Proof. intros Hget. unfold acked_getitem. by rewrite Hget. Qed.

Lemma acked_getitem_absent s tp :
  dict_get tp (_acked s) = None →
  acked_getitem tp s =
    (set_acked (dict_set tp [] (_acked s)) s, Returned []).
Proof. intros Hget. unfold acked_getitem. by rewrite Hget. Qed.

Lemma set_acked_same s : set_acked (_acked s) s = s.
Proof. by destruct s. Qed.

(** [_new_offset] on a non-empty ack list, step by step. *)
Lemma new_offset_nonempty s tp acked :
  dict_get tp (_acked s) = Some acked → acked ≠ [] →
  ∃ p rest ak,
    committable_prefix acked p ∧ last p = Some ak ∧ acked = p ++ rest ∧
    _new_offset tp s =
      (set_acked (dict_set tp rest (_acked s)) s, Returned (Some ak)).
Proof.
  intros Hget Hne.
  destruct (consecutive_numbers_first acked Hne)
    as (batch & runs & rest & Hruns & Happ & Hbatch & _ & Hprefix).
  destruct (last_is_Some batch Hbatch) as [ak Hlast].
  exists batch, rest, ak. split_and!; try done.
  unfold _new_offset. run. rewrite (acked_getitem_present _ _ _ Hget).
  assert (bool_of_list acked = true) as -> by by destruct acked.
  rewrite Hruns. simpl. unfold last_item. rewrite Hlast.
  do 3 f_equal. rewrite Happ at 1. by rewrite drop_app_length.
Qed.

Lemma new_offset_empty s tp :
  dict_get tp (_acked s) = Some [] → _new_offset tp s = (s, Returned None).
Proof.
  intros Hget. unfold _new_offset. run.
  by rewrite (acked_getitem_present _ _ _ Hget).
Qed.

Lemma new_offset_untracked s tp :
  dict_get tp (_acked s) = None →
  _new_offset tp s =
    (set_acked (dict_set tp [] (_acked s)) s, Returned None).
Proof.
  intros Hget. unfold _new_offset. run.
  by rewrite (acked_getitem_absent _ _ Hget).
Qed.

(** C1.  On a topic-partition whose ack list [acked] is not empty,
    [_new_offset] returns the last element [ak] of the committable prefix
    [p] of [acked] (the longest prefix in which every element is its
    predecessor plus one) and leaves as the ack list what follows that
    prefix, everything else unchanged; on an empty ack list, and on a
    topic-partition that has none yet, it returns no offset and the ack
    list is empty afterwards. *)
Theorem new_offset_committable_prefix s tp :
  (∀ acked,
     dict_get tp (_acked s) = Some acked → acked ≠ [] →
     ∃ p rest ak,
       committable_prefix acked p ∧ last p = Some ak ∧ acked = p ++ rest ∧
       _new_offset tp s =
         (set_acked (dict_set tp rest (_acked s)) s, Returned (Some ak)) ∧
       dict_get tp (_acked (_new_offset tp s).1) = Some rest) ∧
  (dict_get tp (_acked s) = Some [] ∨ dict_get tp (_acked s) = None →
   (_new_offset tp s).2 = Returned None ∧
   dict_get tp (_acked (_new_offset tp s).1) = Some []).
Proof.
  split.
  - intros acked Hget Hne.
    destruct (new_offset_nonempty s tp acked Hget Hne)
      as (p & rest & ak & Hp & Hlast & Happ & Hrun).
    exists p, rest, ak. split_and!; try done.
    rewrite Hrun. simpl. apply dict_get_set_eq.
  - intros [Hget|Hget].
    + by rewrite (new_offset_empty _ _ Hget).
    + rewrite (new_offset_untracked _ _ Hget). simpl.
      split; [done|]. apply dict_get_set_eq.
Qed.
End new_offset.

Section new_offset_run.
Import transport props scripted.

Lemma new_offset_committable_prefix_witness :
  ∃ p rest ak,
    committable_prefix [34; 35; 36; 40; 41] p ∧ last p = Some ak ∧
    [34; 35; 36; 40; 41] = p ++ rest ∧
    _new_offset t0 with_gap =
      (set_acked (dict_set t0 rest (_acked with_gap)) with_gap,
       Returned (Some ak)) ∧
    dict_get t0 (_acked (_new_offset t0 with_gap).1) = Some rest.
Proof.
  apply (proj1 (new_offset_committable_prefix with_gap t0));
    [reflexivity | discriminate].
Defined.

(** The run of the comment in [_new_offset]: 36 is returned, 40 and 41
    stay. *)
Example new_offset_with_gap :
  (_new_offset t0 with_gap).2 = Returned (Some 36) ∧
  _acked (_new_offset t0 with_gap).1 = [(t0, [40; 41])].
Proof. split; reflexivity. Qed.
End new_offset_run.

Section should_commit.
Import transport props.
Context `{ConsumerDriver}.
Implicit Types (s : Consumer) (tp : TopicPartition).

(** The two ways in which [_should_commit] answers yes. *)
Lemma should_commit_true s tp (offset : Z) :
  _should_commit s tp offset = true ↔
  _current_offset s !! tp = None ∨
  ∃ current, _current_offset s !! tp = Some current ∧
             offset ≠ 0 ∧ current < offset.
Proof.
  unfold _should_commit, bool_of_int.
  destruct (_current_offset s !! tp) as [current|].
  - rewrite andb_true_iff, negb_true_iff, Z.eqb_neq, Z.ltb_lt.
    split.
    + intros [? ?]. right. by exists current.
    + intros [?|(c & [= <-] & ? & ?)]; done.
  - split; [by left | done].
Qed.

(** C3, as amended.  [_should_commit(tp, offset)] is true exactly when
    [tp] has never been committed, whatever the offset, or the offset is
    not 0 and is above [CurrentOffset(tp)]. *)
Theorem should_commit_iff s tp (offset : Z) :
  _should_commit s tp offset = true ↔
  _current_offset s !! tp = None ∨
  ∃ current, _current_offset s !! tp = Some current ∧
             offset ≠ 0 ∧ current < offset.
Proof. apply should_commit_true. Qed.

(** On a committed topic-partition whose current offset is not negative,
    the test on [bool(offset)] changes nothing. *)
Lemma should_commit_committed s tp (offset current : Z) :
  _current_offset s !! tp = Some current → 0 ≤ current →
  _should_commit s tp offset = bool_decide (current < offset).
Proof.
  intros Hcur Hpos. unfold _should_commit, bool_of_int. rewrite Hcur.
  case_bool_decide as Hlt.
  - apply andb_true_iff. rewrite negb_true_iff, Z.eqb_neq, Z.ltb_lt. lia.
  - apply andb_false_iff. right. apply Z.ltb_ge. lia.
Qed.

Lemma should_commit_false s tp (offset : Z) :
  _should_commit s tp offset = false →
  ∃ current, _current_offset s !! tp = Some current.
Proof.
  unfold _should_commit. destruct (_current_offset s !! tp); [eauto|done].
Qed.
End should_commit.

Section should_commit_run.
Import transport props scripted.

(** C3 fails at offset 0 on a topic-partition that was never committed:
    the code says commit, the rule of the spec says do not. *)
Lemma should_commit_first_zero :
  ¬ (_should_commit (fresh []) t0 0 = true ↔
     spec_should_commit (fresh []) t0 0).
Proof.
  intros [Hcode _]. destruct (Hcode eq_refl) as [(c & Hc & _)|[_ Hpos]].
  - vm_compute in Hc. discriminate.
  - lia.
Qed.
End should_commit_run.

(** ** The commit pass *)

Section for_each_facts.
Context {S A B : Type}.
Implicit Types (body : A → B → Method S B) (xs : list A).

Lemma for_each_cons body x xs acc s :
  for_each (x :: xs) body acc s =
    match body x acc s with
    | (s1, Returned acc1) => for_each xs body acc1 s1
    | (s1, Raised e) => (s1, Raised e)
    end.
Proof. reflexivity. Qed.

Lemma for_each_app body xs ys acc s :
  for_each (xs ++ ys) body acc s =
    match for_each xs body acc s with
    | (s1, Returned acc1) => for_each ys body acc1 s1
    | (s1, Raised e) => (s1, Raised e)
    end.
Proof.
  revert acc s. induction xs as [|x xs IH]; intros acc s; [done|].
  rewrite <- app_comm_cons, !for_each_cons.
  destruct (body x acc s) as [s1 [acc1|e]]; [apply IH | done].
Qed.

(** What every pass of the loop preserves, the loop preserves. *)
Lemma for_each_preserves (R : S → S → Prop)
    `{!Reflexive R, !Transitive R} body :
  (∀ x acc s, R s (body x acc s).1) →
  ∀ xs acc s, R s (for_each xs body acc s).1.
Proof.
  intros Hbody xs. induction xs as [|x xs IH]; intros acc s; [done|].
  rewrite for_each_cons. specialize (Hbody x acc s).
  destruct (body x acc s) as [s1 [acc1|e]]; simpl in *; [|done].
  by transitivity s1.
Qed.

(** A loop that raises does so in one of its passes, after the passes
    before it have returned. *)
Lemma for_each_raised body xs acc s s' e :
  for_each xs body acc s = (s', Raised e) →
  ∃ xs1 x xs2 acc1 s1,
    xs = xs1 ++ x :: xs2 ∧
    for_each xs1 body acc s = (s1, Returned acc1) ∧
    body x acc1 s1 = (s', Raised e).
Proof.
  revert acc s. induction xs as [|x xs IH]; intros acc s; [done|].
  rewrite for_each_cons.
  destruct (body x acc s) as [s1 [acc1|e1]] eqn:Hbody.
  - intros (xs1 & y & xs2 & acc2 & s2 & -> & Hpre & Hy)%IH.
    exists (x :: xs1), y, xs2, acc2, s2. split_and!; [done| |done].
    by rewrite for_each_cons, Hbody.
  - intros [= -> ->]. by exists [], x, xs, acc, s.
Qed.
End for_each_facts.

Section commit_pass.
Import transport props.
Context `{ConsumerDriver}.
Implicit Types (s : Consumer) (tp : TopicPartition).

Lemma maybe_commit_unfold s :
  maybe_commit s = for_each (dict_keys (_acked s)) commit_body false s.
Proof. reflexivity. Qed.

Lemma commit_body_outcome tp acc s :
  pass_outcome tp acc s (commit_body tp acc s).
Proof.
  unfold commit_body. run.
  destruct (dict_get tp (_acked s)) as [l|] eqn:Hget.
  - destruct (decide (l = [])) as [->|Hne].
    + rewrite (new_offset_empty _ _ Hget). by apply pass_empty.
    + destruct (new_offset_nonempty s tp l Hget Hne)
        as (p & rest & ak & Hp & Hlast & Happ & ->).
      change (_should_commit (set_acked (dict_set tp rest (_acked s)) s) tp ak)
        with (_should_commit s tp ak).
      destruct (_should_commit s tp ak) eqn:Hshould.
      * unfold _do_commit. simpl.
        pose proof (pass_commit tp acc s l p rest ak
                      Hget Hne Hp Hlast Happ Hshould) as Hpass.
        unfold committed_state in Hpass.
        destruct (_commit _ (driver s)) as [session [[]|e]]; exact Hpass.
      * by eapply pass_skip.
  - rewrite (new_offset_untracked _ _ Hget). by apply pass_untracked.
Qed.
End commit_pass.

Section commit_frame.
Import transport props.
Context `{ConsumerDriver}.
Implicit Types (s : Consumer) (tp : TopicPartition).

Global Instance offsets_le_refl : Reflexive offsets_le.
Proof. intros s tp c Hc. exists c. split; [done|lia]. Qed.

Global Instance offsets_le_trans : Transitive offsets_le.
Proof.
  intros s1 s2 s3 H12 H23 tp c Hc.
  destruct (H12 tp c Hc) as (c2 & Hc2 & ?).
  destruct (H23 tp c2 Hc2) as (c3 & Hc3 & ?).
  exists c3. split; [done|lia].
Qed.

Global Instance no_commit_for_refl tp : Reflexive (no_commit_for tp).
Proof. intros s. exists []. by rewrite app_nil_r. Qed.

Global Instance no_commit_for_trans tp : Transitive (no_commit_for tp).
Proof.
  intros s1 s2 s3 (d1 & H1 & Hd1) (d2 & H2 & Hd2). exists (d1 ++ d2).
  split.
  - by rewrite H2, H1, app_assoc.
  - unfold commits_to in *. by rewrite List.filter_app, Hd1, Hd2.
Qed.

Global Instance untouched_refl tp : Reflexive (untouched tp).
Proof. intros s. by split_and!. Qed.

Global Instance untouched_trans tp : Transitive (untouched tp).
Proof.
  intros s1 s2 s3 (Ha1 & Hc1 & He1) (Ha2 & Hc2 & He2). split_and!.
  - by rewrite Ha2.
  - by rewrite Hc2.
  - by transitivity s2.
Qed.

(** A pass never lowers a [CurrentOffset]. *)
Lemma pass_offsets_le tp acc s out :
  pass_outcome tp acc s out → offsets_le s out.1.
Proof.
  intros [Hget|Hget|l p rest ak Hget Hne Hp Hlast Happ Hshould
         |l p rest ak Hget Hne Hp Hlast Happ Hshould];
    intros tp' c Hc; simpl; try (exists c; split; [done|lia]).
  destruct (decide (tp = tp')) as [<-|Hne'].
  - rewrite lookup_insert_eq. exists ak. split; [done|].
    apply should_commit_true in Hshould as [Hnone|(c' & Hc' & _ & Hlt)].
    + congruence.
    + assert (c = c') by congruence. lia.
  - rewrite lookup_insert_ne by done. exists c. split; [done|lia].
Qed.

(** A pass on one topic-partition leaves the others alone. *)
Lemma pass_untouched tp tp' acc s out :
  tp' ≠ tp → pass_outcome tp' acc s out → untouched tp s out.1.
Proof.
  intros Hne
    [Hget|Hget|l p rest ak Hget Hne' Hp Hlast Happ Hshould
    |l p rest ak Hget Hne' Hp Hlast Happ Hshould];
    unfold untouched, no_commit_for; simpl.
  - split_and!; [by rewrite dict_get_set_ne|done|].
    exists []. by rewrite app_nil_r.
  - split_and!; [done|done|]. exists []. by rewrite app_nil_r.
  - split_and!; [by rewrite dict_get_set_ne|done|].
    exists []. by rewrite app_nil_r.
  - split_and!.
    + by rewrite dict_get_set_ne.
    + by rewrite lookup_insert_ne.
    + eexists. split; [reflexivity|]. simpl.
      rewrite bool_decide_eq_false_2; [done|].
      simpl. intros ?%list_elem_of_singleton. done.
Qed.

Lemma commit_body_offsets_le tp acc s : offsets_le s (commit_body tp acc s).1.
Proof. eapply pass_offsets_le, commit_body_outcome. Qed.

Lemma maybe_commit_offsets_le s : offsets_le s (maybe_commit s).1.
Proof.
  rewrite maybe_commit_unfold.
  apply (for_each_preserves offsets_le), commit_body_offsets_le.
Qed.

(** The passes over other topic-partitions leave [tp] alone. *)
Lemma passes_untouched tp xs acc s :
  tp ∉ xs → untouched tp s (for_each xs commit_body acc s).1.
Proof.
  revert acc s. induction xs as [|x xs IH]; intros acc s Hnot; [reflexivity|].
  apply not_elem_of_cons in Hnot as [Hne Hnot].
  rewrite for_each_cons.
  pose proof (pass_untouched tp x acc s _ (not_eq_sym Hne)
                (commit_body_outcome x acc s)) as Hx.
  destruct (commit_body x acc s) as [s1 [acc1|e]]; simpl in *; [|done].
  transitivity s1; [done|]. by apply IH.
Qed.

Lemma should_commit_untouched tp s s' offset :
  untouched tp s s' → _should_commit s' tp offset = _should_commit s tp offset.
Proof. intros (_ & Hcur & _). unfold _should_commit. by rewrite Hcur. Qed.
End commit_frame.

Section commit_claims.
Import transport props.
Context `{ConsumerDriver}.
Implicit Types (s : Consumer) (tp : TopicPartition).

(** The pass on [tp] itself: the committable prefix leaves the ack list,
    and when the offset is not to be committed nothing else happens. *)
Lemma pass_self tp acc s l p rest ak out :
  dict_get tp (_acked s) = Some l → l ≠ [] →
  committable_prefix l p → last p = Some ak → l = p ++ rest →
  pass_outcome tp acc s out →
  dict_get tp (_acked out.1) = Some rest ∧
  (_should_commit s tp ak = false →
   out.2 = Returned acc ∧
   _current_offset out.1 !! tp = _current_offset s !! tp ∧
   no_commit_for tp s out.1).
Proof.
  intros Hget Hne Hp Hlast Happ
    [Hget'|Hget'|l' p' rest' ak' Hget' Hne' Hp' Hlast' Happ' Hshould
    |l' p' rest' ak' Hget' Hne' Hp' Hlast' Happ' Hshould];
    try congruence.
  all: assert (l' = l) as -> by congruence.
  all: assert (p' = p) as -> by by eapply committable_prefix_unique.
  all: assert (rest' = rest) as ->
         by (rewrite Happ in Happ'; by apply app_inv_head in Happ').
  all: assert (ak' = ak) as -> by congruence.
  all: simpl; rewrite dict_get_set_eq; split; [done|].
  - intros _. split_and!; [done|done|]. exists []. by rewrite app_nil_r.
  - congruence.
Qed.

End commit_claims.

Section commit_runs.
Import transport props scripted.

(** The late acks 3 and 4 leave the ack list in one pass that commits
    nothing: the committed offset stays 5 and the broker sees no call. *)
Example late_acks_dropped :
  _acked late_acks = [(t0, [3; 4; 9])] ∧
  _current_offset late_acks !! t0 = Some 5 ∧
  (maybe_commit late_acks).2 = Returned false ∧
  _acked (maybe_commit late_acks).1 = [(t0, [9])] ∧
  _current_offset (maybe_commit late_acks).1 !! t0 = Some 5 ∧
  effects (maybe_commit late_acks).1 = effects late_acks.
Proof. split_and!; reflexivity. Qed.



(** The same run, value by value: the refused commit is the last call the
    broker sees, although it would accept the next one. *)
Example refused_commit_run :
  _current_offset before_refusal !! t0 = Some 2 ∧
  (maybe_commit before_refusal).2 = Raised (DriverError "commit failed") ∧
  _current_offset (maybe_commit before_refusal).1 !! t0 = Some 3 ∧
  (_commit_handler 2 before_refusal).2 = Failed (DriverError "commit failed") ∧
  accepted (driver (_commit_handler 2 before_refusal).1) = [(t0, 2)] ∧
  refusals (driver (_commit_handler 2 before_refusal).1) = [] ∧
  commits_to t0 (effects (_commit_handler 2 before_refusal).1)
    = [DriverCommit [(t0, 2)]; DriverCommit [(t0, 3)]].
Proof. split_and!; reflexivity. Qed.
End commit_runs.

(** ** Sessions *)

Section session_facts.
Import transport props.
Context `{ConsumerDriver}.
Implicit Types (s : Consumer) (tp : TopicPartition).

Lemma offsets_le_same s s' :
  _current_offset s' = _current_offset s → offsets_le s s'.
Proof. intros Hsame tp c Hc. exists c. rewrite Hsame. split; [done|lia]. Qed.

(** What [ack] does to the attributes. *)
Lemma ack_unfold s tp (offset : Z) :
  ack tp offset s =
    (set_recently_acked (_recently_acked s ++ [(tp, offset)])
       (set_acked
          (dict_set tp
             (sort (default [] (dict_get tp (_acked s)) ++ [offset]))
             (match dict_get tp (_acked s) with
              | Some _ => _acked s
              | None => dict_set tp [] (_acked s)
              end)) s),
     Returned tt).
Proof.
  unfold ack, acked_getitem. run.
  destruct (dict_get tp (_acked s)); reflexivity.
Qed.

Lemma ack_current_offset s tp (offset : Z) :
  _current_offset (ack tp offset s).1 = _current_offset s.
Proof. by rewrite ack_unfold. Qed.

Lemma ack_acked_same s tp (offset : Z) :
  dict_get tp (_acked (ack tp offset s).1) =
    Some (sort (default [] (dict_get tp (_acked s)) ++ [offset])).
Proof. rewrite ack_unfold. simpl. apply dict_get_set_eq. Qed.

Lemma ack_acked_other s tp tp' (offset : Z) :
  tp ≠ tp' →
  dict_get tp' (_acked (ack tp offset s).1) = dict_get tp' (_acked s).
Proof.
  intros Hne. rewrite ack_unfold. simpl. rewrite dict_get_set_ne by done.
  destruct (dict_get tp (_acked s)); [done|]. by rewrite dict_get_set_ne.
Qed.

Lemma ack_wf s tp (offset : Z) :
  dict_wf (_acked s) → dict_wf (_acked (ack tp offset s).1).
Proof.
  intros Hwf. rewrite ack_unfold. simpl. apply dict_wf_set.
  destruct (dict_get tp (_acked s)); [done|]. by apply dict_wf_set.
Qed.

(** What [on_message_ready] does: it looks the flag up under the
    topic-partition of the reference, which enters the default there when
    nothing is stored, and acks when the flag is true. *)
Lemma on_message_ready_unfold s (ref : MessageRef) :
  on_message_ready ref s =
    let looked_up :=
      match _autoack s !! ByTP (ref_tp ref) with
      | Some _ => s
      | None =>
          set_autoack_map (<[ByTP (ref_tp ref) := autoack s]> (_autoack s)) s
      end in
    if default (autoack s) (_autoack s !! ByTP (ref_tp ref))
    then ack (ref_tp ref) (ref_offset ref) looked_up
    else (looked_up, Returned tt).
Proof.
  unfold on_message_ready, autoack_getitem. run.
  destruct (_autoack s !! ByTP (ref_tp ref)) as [[]|]; simpl; try done.
  by destruct (autoack s).
Qed.

Lemma on_message_ready_current_offset s (ref : MessageRef) :
  _current_offset (on_message_ready ref s).1 = _current_offset s.
Proof.
  rewrite on_message_ready_unfold. simpl.
  destruct (default (autoack s) (_autoack s !! ByTP (ref_tp ref))).
  - rewrite ack_current_offset. by destruct (_autoack s !! _).
  - simpl. by destruct (_autoack s !! _).
Qed.

(** What [track_message] does to the attributes and to the outside. *)
Lemma track_message_unfold s (message : Message) (offset : Z) :
  track_message message offset s =
    (log_effect
       (SensorMessageIn (id s)
          (_new_topicpartition (msg_topic message) (msg_partition message))
          offset message)
       (set_dirty_messages
          (_dirty_messages s ++
             [mkMessageRef message
                (mkTopicPartition (msg_topic message) (msg_partition message))
                offset (id s)]) s),
     Returned tt).
Proof. reflexivity. Qed.

Lemma on_task_error_offsets_le s : offsets_le s (on_task_error s).1.
Proof.
  unfold on_task_error. run. destruct (autoack s); [|reflexivity].
  pose proof (maybe_commit_offsets_le s) as Hle.
  by destruct (maybe_commit s) as [s' [b|e]].
Qed.

Lemma call_offsets_le (c : Call) s : offsets_le s (call c s).
Proof.
  destruct c as [message offset|ref|tp offset| |]; simpl.
  - by apply offsets_le_same.
  - apply offsets_le_same, on_message_ready_current_offset.
  - apply offsets_le_same, ack_current_offset.
  - apply maybe_commit_offsets_le.
  - apply on_task_error_offsets_le.
Qed.

Lemma session_app (calls1 calls2 : list Call) s :
  session (calls1 ++ calls2) s = session calls2 (session calls1 s).
Proof. apply foldl_app. Qed.

Lemma session_offsets_le (calls : list Call) s : offsets_le s (session calls s).
Proof.
  revert s. induction calls as [|c calls IH]; intros s; [reflexivity|].
  simpl. transitivity (call c s); [apply call_offsets_le | apply IH].
Qed.

(** C9.  Within a session, whatever calls of [track_message],
    [on_message_ready], [ack], [maybe_commit] and [on_task_error] are made
    and whether or not they raise: once [CurrentOffset(tp)] is set, after
    the calls [before], it is still set after any further calls [after],
    to a value that is not lower. *)
Theorem current_offset_never_decreases (before after : list Call) s tp
    (current : Z) :
  _current_offset (session before s) !! tp = Some current →
  ∃ current',
    _current_offset (session (before ++ after) s) !! tp = Some current' ∧
    current ≤ current'.
Proof.
  intros Hcur. rewrite session_app.
  by apply (session_offsets_le after (session before s)).
Qed.
End session_facts.

Section session_runs.
Import transport props scripted.

Lemma current_offset_never_decreases_witness :
  ∃ current',
    _current_offset
      (session ([CallAck t0 5; CallMaybeCommit] ++
                [CallAck t0 3; CallAck t0 4; CallAck t0 9; CallMaybeCommit])
         (fresh [])) !! t0 = Some current' ∧
    5 ≤ current'.
Proof.
  apply (current_offset_never_decreases
           [CallAck t0 5; CallMaybeCommit]
           [CallAck t0 3; CallAck t0 4; CallAck t0 9; CallMaybeCommit]
           (fresh []) t0 5).
  reflexivity.
Defined.
End session_runs.

(** ** Acknowledgements *)

Section ack_claims.
Import transport props.
Context `{ConsumerDriver}.
Implicit Types (s : Consumer) (tp : TopicPartition).

Lemma sort_Permutation (l : list Z) : sort l ≡ₚ l.
Proof. apply merge_sort_Permutation. Qed.

Lemma sort_Sorted (l : list Z) : Sorted Z.le (sort l).
Proof. apply (Sorted_merge_sort Z.le). Qed.

(** Every ack list is sorted after an [ack] of its topic-partition. *)
Lemma ack_sorted s tp (offset : Z) :
  ∃ l, dict_get tp (_acked (ack tp offset s).1) = Some l ∧ Sorted Z.le l.
Proof. eexists. split; [apply ack_acked_same | apply sort_Sorted]. Qed.

(** What the second of two equal acks makes of the ack list. *)
Lemma ack_twice_acked s tp (o : Z) :
  dict_get tp (_acked (ack tp o (ack tp o s).1).1) =
    Some (sort (sort (default [] (dict_get tp (_acked s)) ++ [o]) ++ [o])).
Proof. by rewrite ack_acked_same, ack_acked_same. Qed.

(** A second copy makes the list longer: the two ack lists differ. *)
Lemma ack_twice_longer s tp (o : Z) (once twice : list Z) :
  dict_get tp (_acked (ack tp o s).1) = Some once →
  dict_get tp (_acked (ack tp o (ack tp o s).1).1) = Some twice →
  length twice = Datatypes.S (length once).
Proof.
  rewrite ack_twice_acked, ack_acked_same. intros [= <-] [= <-].
  rewrite (sort_Permutation (_ ++ [o])), length_app. simpl. lia.
Qed.

(** C2, as amended.  Acking the same offset twice is not collapsed: after
    [ack(tp, o); ack(tp, o)] the ack list of [tp] is sorted and holds the
    offsets it holds after a single [ack(tp, o)] with one more copy of [o],
    so no offset is in one list and not in the other; the ack lists of the
    other topic-partitions and [CurrentOffset] are as after the single
    call. *)
Theorem ack_twice_keeps_both_copies s tp (o : Z) :
  ∃ once twice : list Z,
    dict_get tp (_acked (ack tp o s).1) = Some once ∧
    dict_get tp (_acked (ack tp o (ack tp o s).1).1) = Some twice ∧
    twice ≡ₚ o :: once ∧ Sorted Z.le twice ∧ o ∈ once ∧
    (∀ x, x ∈ twice ↔ x ∈ once) ∧
    (∀ tp', tp ≠ tp' →
       dict_get tp' (_acked (ack tp o (ack tp o s).1).1)
         = dict_get tp' (_acked (ack tp o s).1)) ∧
    _current_offset (ack tp o (ack tp o s).1).1
      = _current_offset (ack tp o s).1.
Proof.
  set (once := sort (default [] (dict_get tp (_acked s)) ++ [o])).
  assert (dict_get tp (_acked (ack tp o s).1) = Some once) as Honce
    by apply ack_acked_same.
  assert (o ∈ once) as Hin.
  { unfold once. rewrite sort_Permutation, elem_of_app, list_elem_of_singleton.
    by right. }
  exists once, (sort (once ++ [o])). split_and!.
  - done.
  - rewrite ack_acked_same. by rewrite Honce.
  - rewrite sort_Permutation. by rewrite Permutation_app_comm.
  - apply sort_Sorted.
  - done.
  - intros x. rewrite sort_Permutation, elem_of_app, list_elem_of_singleton.
    split; [by intros [?| ->] | by left].
  - intros tp' Hne. by apply ack_acked_other.
  - apply ack_current_offset.
Qed.

End ack_claims.

Section ack_runs.
Import transport props scripted.

(** C2 fails on the ack list [1, 3]: after two acks of offset 2 the ack
    list is not the one that a single ack leaves, and the next commit pass
    commits another offset. *)
Lemma ack_twice_is_not_ack_once :
  ¬ (_acked (ack t0 2 (ack t0 2 one_and_three).1).1
       = _acked (ack t0 2 one_and_three).1 ∧
     accepted (driver (maybe_commit (ack t0 2 (ack t0 2 one_and_three).1).1).1)
       = accepted (driver (maybe_commit (ack t0 2 one_and_three).1).1)).
Proof. intros [Hacked _]. vm_compute in Hacked. discriminate. Qed.

(** The same run, value by value: with the duplicate, the first pass stops
    at offset 2 and a second pass is needed to reach offset 3. *)
Example ack_twice_run :
  _acked (ack t0 2 one_and_three).1 = [(t0, [1; 2; 3])] ∧
  _acked (ack t0 2 (ack t0 2 one_and_three).1).1 = [(t0, [1; 2; 2; 3])] ∧
  accepted (driver (maybe_commit (ack t0 2 one_and_three).1).1) = [(t0, 3)] ∧
  accepted (driver (maybe_commit (ack t0 2 (ack t0 2 one_and_three).1).1).1)
    = [(t0, 2)].
Proof. split_and!; reflexivity. Qed.

(** C8 at the failing input: autoack is switched off for topic ["a"], a
    message of that topic is released, and [on_message_ready] acks it all
    the same, because it looks the flag up under the topic-partition, finds
    nothing, and takes the default. *)
Lemma on_message_ready_misses_topic_flag :
  _autoack a_switched_off !! ByTopic (topic (ref_tp ref_a7)) = Some false ∧
  on_message_ready ref_a7 a_switched_off
    = ack a0 7
        (set_autoack_map
           (<[ByTP a0 := true]> (_autoack a_switched_off)) a_switched_off) ∧
  _acked (on_message_ready ref_a7 a_switched_off).1 = [(a0, [7])] ∧
  _recently_acked (on_message_ready ref_a7 a_switched_off).1 = [(a0, 7)].
Proof. split_and!; reflexivity. Qed.

(** C10 fails on any message: among the outside calls of [track_message]
    there is the sensor call and no call of the user callback after it. *)
Lemma track_message_never_calls_back :
  ¬ (∃ i j : nat,
       (i < j)%nat ∧
       effects (track_message message_t 0 (fresh [])).1 !! i
         = Some (SensorMessageIn 0 t0 0 message_t) ∧
       effects (track_message message_t 0 (fresh [])).1 !! j
         = Some (CallbackInvoked message_t)).
Proof.
  intros (i & j & Hlt & _ & Hj).
  destruct j as [|j]; [lia|]. vm_compute in Hj. by destruct j.
Qed.
End ack_runs.

Section track_message_claims.
Import transport props.
Context `{ConsumerDriver}.
Implicit Types (s : Consumer).

(** C10, as amended.  [track_message(message, offset)] returns after it has
    appended to [DirtyMessages] a [MessageRef] for the message, with its
    topic-partition, the offset and the consumer id, and has then emitted
    the [message_in] sensor event with [(consumer_id, tp, offset, message)];
    that sensor event is its only outside call, so it does not invoke the
    user callback, and it changes no other attribute. *)
Theorem track_message_tracks_and_senses s (message : Message) (offset : Z) :
  (track_message message offset s).2 = Returned tt ∧
  _dirty_messages (track_message message offset s).1
    = _dirty_messages s ++
        [mkMessageRef message
           (mkTopicPartition (msg_topic message) (msg_partition message))
           offset (id s)] ∧
  effects (track_message message offset s).1
    = effects s ++
        [SensorMessageIn (id s)
           (_new_topicpartition (msg_topic message) (msg_partition message))
           offset message] ∧
  (∀ m, CallbackInvoked m ∈ effects (track_message message offset s).1 →
        CallbackInvoked m ∈ effects s) ∧
  _acked (track_message message offset s).1 = _acked s ∧
  _current_offset (track_message message offset s).1 = _current_offset s ∧
  _autoack (track_message message offset s).1 = _autoack s ∧
  _recently_acked (track_message message offset s).1 = _recently_acked s ∧
  driver (track_message message offset s).1 = driver s.
Proof.
  rewrite track_message_unfold. simpl. split_and!; try done.
  intros m [Hin|Hin]%elem_of_app; [done|].
  by apply list_elem_of_singleton in Hin.
Qed.
End track_message_claims.

(** ** Tables *)

Section table_claims.
Import tables.
Context {K V : Type} `{Countable K}.
Variable open_store : option string → gmap K V.
Implicit Types (w : World (K := K) (V := V)) (key : K) (value : V).

(** The name that [_changelog_topic_name] returns is the template itself;
    the substitution is the work of [derive_topic]. *)
Lemma changelog_topic_name_is_template :
  _changelog_topic_name = "{0.app.id}-{0.table_name}-changelog".
Proof. reflexivity. Qed.

(** Formatting the template with a table. *)
Lemma format_changelog_template w :
  format (table_field w) _changelog_topic_name =
    Returned (app_id (app w) +:+ "-" +:+
              str_of_optional (table_name (table w)) +:+ "-changelog").
Proof. reflexivity. Qed.

(** What [on_bind] leaves behind. *)
Lemma on_bind_unfold w :
  on_bind open_store w =
    (let url := match _store (table w) with
                | Some u => if decide (u = "") then store (app w) else u
                | None => store (app w)
                end in
     let opened :=
       set_data (open_store (if StateStore (table w) then None else Some url))
         w in
     let named :=
       set_changelog_topic
         (mkTopic (app_id (app w) +:+ "-" +:+
                   str_of_optional (table_name (table w)) +:+ "-changelog"))
         opened in
     (add_table named).1,
     Returned tt).
Proof.
  destruct w as [a [name factory url [] contents bound]]; reflexivity.
Qed.

(** What the two hooks do on a bound table. *)
Lemma on_key_set_bound w t key value :
  changelog_topic (table w) = Some t →
  on_key_set key value w = send_soon t key (Some value) w.
Proof.
  intros Hbound. unfold on_key_set, get_changelog_topic. run.
  by rewrite Hbound.
Qed.

Lemma on_key_del_bound w t key :
  changelog_topic (table w) = Some t →
  on_key_del key w = send_soon t key None w.
Proof.
  intros Hbound. unfold on_key_del, get_changelog_topic. run.
  by rewrite Hbound.
Qed.

(** C5.  On a bound table, with changelog topic [t]: [set(k, v)] returns
    with the underlying map updated at [k] and the changelog record
    [(k, v)] added to the pending sends; [del(k)] of a key that is present
    returns with the entry removed and the tombstone [(k, null)] added to
    the pending sends.  In both cases the record is in the queue in the
    state in which the call returns. *)
Theorem table_mutation_enqueues_changelog w t key value :
  changelog_topic (table w) = Some t →
  ((setitem key value w).2 = Returned tt ∧
   data (table (setitem key value w).1) = <[key := value]> (data (table w)) ∧
   pending (app (setitem key value w).1)
     = pending (app w) ++ [(t, key, Some value)]) ∧
  (is_Some (data (table w) !! key) →
   (delitem key w).2 = Returned tt ∧
   data (table (delitem key w).1) = delete key (data (table w)) ∧
   pending (app (delitem key w).1) = pending (app w) ++ [(t, key, None)]).
Proof.
  intros Hbound. split.
  - unfold setitem. run.
    rewrite (on_key_set_bound _ t) by done. by split_and!.
  - intros Hpresent. unfold delitem. run.
    rewrite bool_decide_eq_true_2 by done.
    rewrite (on_key_del_bound _ t) by done. by split_and!.
Qed.

(** C6.  A table with name [name], bound to an application with id
    [app_id]: [on_bind] returns with the changelog topic named
    [app_id-name-changelog], the template
    ["{app_id}-{table_name}-changelog"] with the two values substituted,
    and that is the topic that [set] and [del] then send to. *)
Theorem changelog_topic_is_derived_from_app_and_table w (name : string) :
  table_name (table w) = Some name →
  (on_bind open_store w).2 = Returned tt ∧
  changelog_topic (table (on_bind open_store w).1)
    = Some (mkTopic (app_id (app w) +:+ "-" +:+ name +:+ "-changelog")) ∧
  (∀ key value,
     pending (app (setitem key value (on_bind open_store w).1).1)
       = pending (app (on_bind open_store w).1) ++
           [(mkTopic (app_id (app w) +:+ "-" +:+ name +:+ "-changelog"),
             key, Some value)]) ∧
  (∀ key,
     pending (app (on_key_del key (on_bind open_store w).1).1)
       = pending (app (on_bind open_store w).1) ++
           [(mkTopic (app_id (app w) +:+ "-" +:+ name +:+ "-changelog"),
             key, None)]).
Proof.
  intros Hname. rewrite on_bind_unfold. simpl. rewrite Hname. simpl.
  split_and!; try done.
Qed.
End table_claims.

Section table_runs.
Import tables counters.

Lemma table_mutation_enqueues_changelog_witness :
  ((setitem "y" 2 with_x_and_y).2 = Returned tt ∧
   data (table (setitem "y" 2 with_x_and_y).1)
     = <["y" := 2]> (data (table with_x_and_y)) ∧
   pending (app (setitem "y" 2 with_x_and_y).1)
     = pending (app with_x_and_y) ++
         [(mkTopic "shop-clicks-changelog", "y", Some 2)]) ∧
  (is_Some (data (table with_x_and_y) !! "y") →
   (delitem "y" with_x_and_y).2 = Returned tt ∧
   data (table (delitem "y" with_x_and_y).1)
     = delete "y" (data (table with_x_and_y)) ∧
   pending (app (delitem "y" with_x_and_y).1)
     = pending (app with_x_and_y) ++
         [(mkTopic "shop-clicks-changelog", "y", None)]).
Proof.
  apply (table_mutation_enqueues_changelog with_x_and_y
           (mkTopic "shop-clicks-changelog") "y" 2).
  reflexivity.
Defined.

Lemma changelog_topic_is_derived_from_app_and_table_witness :
  (on_bind empty_store unbound).2 = Returned tt ∧
  changelog_topic (table (on_bind empty_store unbound).1)
    = Some (mkTopic ("shop" +:+ "-" +:+ "clicks" +:+ "-changelog")) ∧
  (∀ key value,
     pending (app (setitem key value (on_bind empty_store unbound).1).1)
       = pending (app (on_bind empty_store unbound).1) ++
           [(mkTopic ("shop" +:+ "-" +:+ "clicks" +:+ "-changelog"),
             key, Some value)]) ∧
  (∀ key,
     pending (app (on_key_del key (on_bind empty_store unbound).1).1)
       = pending (app (on_bind empty_store unbound).1) ++
           [(mkTopic ("shop" +:+ "-" +:+ "clicks" +:+ "-changelog"),
             key, None)]).
Proof.
  apply (changelog_topic_is_derived_from_app_and_table
           empty_store unbound "clicks").
  reflexivity.
Defined.

(** Scenario S5: [table["x"] = 1; table["y"] = 2; del table["x"]]. *)
Example changelog_round_trip :
  pending (app (delitem "x" with_x_and_y).1)
    = [(mkTopic "shop-clicks-changelog", "x", Some 1);
       (mkTopic "shop-clicks-changelog", "y", Some 2);
       (mkTopic "shop-clicks-changelog", "x", None)] ∧
  data (table (delitem "x" with_x_and_y).1) !! "x" = None ∧
  data (table (delitem "x" with_x_and_y).1) !! "y" = Some 2.
Proof. split_and!; reflexivity. Qed.
End table_runs.

(** ** Reachable consumers *)

Section reachable.
Import transport props.
Context `{ConsumerDriver}.
Implicit Types (s : Consumer) (tp : TopicPartition).

(** The ack dictionary stays a dictionary: what the theorem on the commit
    pass asks of [_acked] holds of a new consumer and after every call. *)
Global Instance keeps_wf_refl : Reflexive keeps_wf.
Proof. intros s Hwf. exact Hwf. Qed.

Global Instance keeps_wf_trans : Transitive keeps_wf.
Proof. intros s1 s2 s3 H12 H23 Hwf. by apply H23, H12. Qed.

Lemma pass_keeps_wf tp acc s out : pass_outcome tp acc s out → keeps_wf s out.1.
Proof.
  intros [?|?|l p rest ak ? ? ? ? ? ?|l p rest ak ? ? ? ? ? ?] Hwf; simpl;
    try done; by apply dict_wf_set.
Qed.

Lemma maybe_commit_keeps_wf s : keeps_wf s (maybe_commit s).1.
Proof.
  rewrite maybe_commit_unfold. apply (for_each_preserves keeps_wf).
  intros tp acc s'. eapply pass_keeps_wf, commit_body_outcome.
Qed.

Lemma call_keeps_wf (c : Call) s : keeps_wf s (call c s).
Proof.
  destruct c as [message offset|ref|tp offset| |]; simpl.
  - by intros Hwf.
  - intros Hwf. rewrite on_message_ready_unfold. simpl.
    destruct (default (autoack s) (_autoack s !! ByTP (ref_tp ref))).
    + apply ack_wf. by destruct (_autoack s !! _).
    + simpl. by destruct (_autoack s !! _).
  - intros Hwf. by apply ack_wf.
  - apply maybe_commit_keeps_wf.
  - unfold on_task_error. run. destruct (autoack s); [|done].
    pose proof (maybe_commit_keeps_wf s) as Hwf.
    by destruct (maybe_commit s) as [s' [b|e]].
Qed.

Lemma session_keeps_wf (calls : list Call) (new_id : Z) (flag : bool)
    (broker : DriverState) :
  dict_wf (_acked (session calls (Consumer_init new_id flag broker))).
Proof.
  assert (∀ s, keeps_wf s (session calls s)) as Hkeeps.
  { induction calls as [|c calls IH]; intros s; [reflexivity|].
    simpl. transitivity (call c s); [apply call_keeps_wf | apply IH]. }
  apply Hkeeps. apply NoDup_nil_2.
Qed.
End reachable.

(** ** What sessions keep *)

Section session_invariants.
Import transport props.
Context `{ConsumerDriver}.
Implicit Types (s : Consumer) (tp : TopicPartition).

Global Instance keeps_refl (P : Consumer → Prop) : Reflexive (keeps P).
Proof. intros s HP. exact HP. Qed.

Global Instance keeps_trans (P : Consumer → Prop) : Transitive (keeps P).
Proof. intros s1 s2 s3 H12 H23 HP. by apply H23, H12. Qed.

Global Instance same_bookkeeping_refl : Reflexive same_bookkeeping.
Proof. intros s. by split_and!. Qed.

Global Instance same_bookkeeping_trans : Transitive same_bookkeeping.
Proof.
  intros s1 s2 s3 (?&?&?&?&?) (?&?&?&?&?). split_and!; congruence.
Qed.

(** What every pass of the commit loop keeps, [maybe_commit] keeps. *)
Lemma maybe_commit_relates (R : Consumer → Consumer → Prop)
    `{!Reflexive R, !Transitive R} :
  (∀ tp acc s out, pass_outcome tp acc s out → R s out.1) →
  ∀ s, R s (maybe_commit s).1.
Proof.
  intros Hpass s. rewrite maybe_commit_unfold.
  apply (for_each_preserves R). intros tp acc s'.
  eapply Hpass, commit_body_outcome.
Qed.

Lemma pass_same_bookkeeping tp acc s out :
  pass_outcome tp acc s out → same_bookkeeping s out.1.
Proof. intros [?|?|l p rest ak ?|l p rest ak ?]; by split_and!. Qed.

Lemma maybe_commit_same_bookkeeping s : same_bookkeeping s (maybe_commit s).1.
Proof. apply (maybe_commit_relates _), pass_same_bookkeeping. Qed.

(** The state in which the lookup of the flag leaves the consumer. *)
Lemma on_message_ready_state s (ref : MessageRef) :
  ∃ s1, (s1 = s ∨ ∃ m, s1 = set_autoack_map m s) ∧
        ((on_message_ready ref s).1 = s1 ∨
         (on_message_ready ref s).1 = (ack (ref_tp ref) (ref_offset ref) s1).1).
Proof.
  rewrite on_message_ready_unfold. cbv zeta.
  set (s1 := match _autoack s !! ByTP (ref_tp ref) with
             | Some _ => s
             | None => set_autoack_map _ s
             end).
  exists s1. split.
  - unfold s1. destruct (_autoack s !! ByTP (ref_tp ref)); [by left|].
    right. by eexists.
  - destruct (default (autoack s) (_autoack s !! ByTP (ref_tp ref)));
      [by right | by left].
Qed.

(** A property that [ack], [track_message], the storing of an autoack flag
    and every pass of the commit loop keep holds throughout a session. *)
Lemma session_keeps (P : Consumer → Prop) :
  (∀ tp acc s out, pass_outcome tp acc s out → P s → P out.1) →
  (∀ tp offset s, P s → P (ack tp offset s).1) →
  (∀ message offset s, P s → P (track_message message offset s).1) →
  (∀ m s, P s → P (set_autoack_map m s)) →
  ∀ calls s, P s → P (session calls s).
Proof.
  intros Hpass Hack Htrack Hflag.
  assert (∀ s, keeps P s (maybe_commit s).1) as Hcommit.
  { apply (maybe_commit_relates (keeps P)). intros tp acc s out Hout.
    intros HP. by eapply Hpass. }
  assert (∀ c s, P s → P (call c s)) as Hcall.
  { intros [message offset|ref|tp offset| |] s HP; simpl.
    - by apply Htrack.
    - destruct (on_message_ready_state s ref) as (s1 & Hs1 & [-> | ->]).
      + destruct Hs1 as [->|[m ->]]; [done | by apply Hflag].
      + apply Hack. destruct Hs1 as [->|[m ->]]; [done | by apply Hflag].
    - by apply Hack.
    - by apply Hcommit.
    - unfold on_task_error. run. destruct (autoack s); [|done].
      pose proof (Hcommit s HP) as HP'.
      by destruct (maybe_commit s) as [s' [b|e]].
  }
  intros calls. induction calls as [|c calls IH]; intros s HP; [done|].
  simpl. by apply IH, Hcall.
Qed.

Lemma Sorted_app_r (l1 l2 : list Z) : Sorted Z.le (l1 ++ l2) → Sorted Z.le l2.
Proof.
  induction l1 as [|a l1 IH]; [done|]. simpl. intros Hs.
  apply Sorted_inv in Hs as [Hs _]. by apply IH.
Qed.

Lemma dict_get_set_cases tp tp' (v : list Z) d (l : list Z) :
  dict_get tp' (dict_set tp v d) = Some l →
  (tp = tp' ∧ l = v) ∨ (tp ≠ tp' ∧ dict_get tp' d = Some l).
Proof.
  destruct (decide (tp = tp')) as [->|Hne].
  - rewrite dict_get_set_eq. intros [= <-]. by left.
  - rewrite dict_get_set_ne by done. by right.
Qed.

(** X1.  The ack lists are always kept sorted: in a consumer that started
    from [__init__], after any calls, whether they returned or raised,
    every ack list is in ascending order. *)
Theorem acked_always_sorted (calls : list Call) (new_id : Z) (flag : bool)
    (broker : DriverState) tp (l : list Z) :
  dict_get tp (_acked (session calls (Consumer_init new_id flag broker)))
    = Some l →
  Sorted Z.le l.
Proof.
  revert tp l. change (all_sorted (session calls (Consumer_init new_id flag broker))).
  apply session_keeps; [| | | |by intros tp l [=]].
  - intros tp acc s out
      [Hget|Hget|l p rest ak Hget Hne Hp Hlast Happ Hshould
      |l p rest ak Hget Hne Hp Hlast Happ Hshould] Hsorted tp' l';
      simpl; try apply Hsorted.
    + intros [[_ ->]|[_ Hold]]%dict_get_set_cases;
        [constructor | by eapply Hsorted].
    + intros [[_ ->]|[_ Hold]]%dict_get_set_cases; [|by eapply Hsorted].
      apply (Sorted_app_r p). rewrite <- Happ. by eapply Hsorted.
    + intros [[_ ->]|[_ Hold]]%dict_get_set_cases; [|by eapply Hsorted].
      apply (Sorted_app_r p). rewrite <- Happ. by eapply Hsorted.
  - intros tp offset s Hsorted tp' l'.
    destruct (decide (tp = tp')) as [<-|Hne].
    + rewrite ack_acked_same. intros [= <-]. apply sort_Sorted.
    + rewrite ack_acked_other by done. apply Hsorted.
  - intros message offset s Hsorted. exact Hsorted.
  - intros m s Hsorted. exact Hsorted.
Qed.

(** X6.  Only acked offsets are committed: in a consumer that started from
    [__init__], after any calls, [CurrentOffset(tp)], when it is set, is an
    offset that [ack] was called with for [tp]. *)
Theorem current_offset_was_acked (calls : list Call) (new_id : Z)
    (flag : bool) (broker : DriverState) tp (current : Z) :
  _current_offset (session calls (Consumer_init new_id flag broker)) !! tp
    = Some current →
  (tp, current) ∈
    _recently_acked (session calls (Consumer_init new_id flag broker)).
Proof.
  revert tp current.
  cut (all_acked (session calls (Consumer_init new_id flag broker)));
    [by intros [_ ?]|].
  apply session_keeps; [| | | |by split].
  - intros tp acc s out
      [Hget|Hget|l p rest ak Hget Hne Hp Hlast Happ Hshould
      |l p rest ak Hget Hne Hp Hlast Happ Hshould] [Hlists Hcur];
      simpl; try done.
    + split; [|done]. intros tp' l' o.
      intros [[_ ->]|[_ Hold]]%dict_get_set_cases; [|by eapply Hlists].
      by intros ?%elem_of_nil.
    + split; [|done]. intros tp' l' o.
      intros [[<- ->]|[_ Hold]]%dict_get_set_cases; [|by eapply Hlists].
      intros Ho. eapply Hlists; [done|]. rewrite Happ, elem_of_app. by right.
    + split.
      * intros tp' l' o.
        intros [[<- ->]|[_ Hold]]%dict_get_set_cases; [|by eapply Hlists].
        intros Ho. eapply Hlists; [done|]. rewrite Happ, elem_of_app.
        by right.
      * intros tp' c. simpl. destruct (decide (tp = tp')) as [<-|Hne'].
        -- rewrite lookup_insert_eq. intros [= <-].
           eapply Hlists; [done|]. rewrite Happ, elem_of_app. left.
           apply last_Some in Hlast as [p' ->]. rewrite elem_of_app.
           right. by apply list_elem_of_singleton.
        -- rewrite lookup_insert_ne by done. apply Hcur.
  - intros tp offset s [Hlists Hcur].
    assert (_recently_acked (ack tp offset s).1
              = _recently_acked s ++ [(tp, offset)]) as Hlog
      by by rewrite ack_unfold.
    split.
    + intros tp' l' o Hl' Ho. rewrite Hlog, elem_of_app.
      destruct (decide (tp = tp')) as [<-|Hne].
      * rewrite ack_acked_same in Hl'. injection Hl' as <-.
        rewrite sort_Permutation in Ho.
        apply elem_of_app in Ho as [Ho|Ho%list_elem_of_singleton].
        -- left. destruct (dict_get tp (_acked s)) as [l0|] eqn:Hl0;
             simpl in Ho; [by eapply Hlists | by apply elem_of_nil in Ho].
        -- right. subst o. by apply list_elem_of_singleton.
      * rewrite ack_acked_other in Hl' by done. left. by eapply Hlists.
    + intros tp' c Hc. rewrite ack_current_offset in Hc.
      rewrite Hlog, elem_of_app. left. by apply Hcur.
  - intros message offset s HP. exact HP.
  - intros m s HP. exact HP.
Qed.
End session_invariants.

(** ** What the calls never do *)

Section never.
Import transport props.
Context `{ConsumerDriver}.
Implicit Types (s : Consumer) (tp : TopicPartition).

Lemma call_dirty_messages (c : Call) s :
  id (call c s) = id s ∧
  _dirty_messages (call c s) = _dirty_messages s ++ tracked_refs (id s) [c].
Proof.
  destruct c as [message offset|ref|tp offset| |]; simpl.
  - done.
  - rewrite app_nil_r.
    destruct (on_message_ready_state s ref) as (s1 & Hs1 & [-> | ->]).
    + by destruct Hs1 as [->|[m ->]].
    + rewrite ack_unfold. simpl. by destruct Hs1 as [->|[m ->]].
  - rewrite app_nil_r, ack_unfold. done.
  - rewrite app_nil_r.
    by destruct (maybe_commit_same_bookkeeping s) as (? & _ & _ & ? & _).
  - rewrite app_nil_r. unfold on_task_error. run.
    destruct (autoack s); [|done].
    destruct (maybe_commit_same_bookkeeping s) as (? & _ & _ & ? & _).
    by destruct (maybe_commit s) as [s' [b|e]].
Qed.

(** X2.  No call takes a reference out of [DirtyMessages]: after any calls
    the list is the one before them followed by one [MessageRef] for every
    [track_message] among them, in the order of the calls, also for the
    messages that were released, acked and committed since. *)
Theorem dirty_messages_only_grow (calls : list Call) s :
  _dirty_messages (session calls s)
    = _dirty_messages s ++ tracked_refs (id s) calls.
Proof.
  revert s. induction calls as [|c calls IH]; intros s.
  - simpl. by rewrite app_nil_r.
  - change (session (c :: calls) s) with (session calls (call c s)).
    destruct (call_dirty_messages c s) as [Hid Hdirty].
    rewrite IH, Hid, Hdirty, <- app_assoc. f_equal.
    unfold tracked_refs. simpl. by destruct c.
Qed.

(** The passes over tracked topic-partitions add no key to [_acked]. *)
Lemma passes_keep_keys (xs : list TopicPartition) acc s :
  (∀ tp, tp ∈ xs → tp ∈ dict_keys (_acked s)) →
  dict_keys (_acked (for_each xs commit_body acc s).1) = dict_keys (_acked s).
Proof.
  revert acc s. induction xs as [|x xs IH]; intros acc s Hin; [done|].
  rewrite for_each_cons.
  assert (x ∈ dict_keys (_acked s)) as Hx by (apply Hin; left).
  pose proof (commit_body_outcome x acc s) as Hpass.
  assert (dict_keys (_acked (commit_body x acc s).1) = dict_keys (_acked s))
    as Hkeys.
  { destruct Hpass as [Hget|?|l p rest ak ?|l p rest ak ?]; simpl;
      try done; by apply dict_keys_set_present. }
  destruct (commit_body x acc s) as [s1 [acc1|e]]; simpl in *; [|done].
  rewrite IH; [done|]. intros tp Htp. rewrite Hkeys. apply Hin. by right.
Qed.

(** X3.  [maybe_commit] iterates over [_acked] while [_new_offset] indexes
    that [defaultdict]: the iteration never enters a key, so the
    dictionary has the same keys in the same order afterwards, whether the
    call returned or raised.  A topic-partition stays tracked, with an
    empty ack list, once all its offsets are consumed. *)
Theorem maybe_commit_keeps_keys s :
  dict_keys (_acked (maybe_commit s).1) = dict_keys (_acked s).
Proof. rewrite maybe_commit_unfold. by apply passes_keep_keys. Qed.


Global Instance effects_grow_refl : Reflexive effects_grow.
Proof. intros s. exists []. by rewrite app_nil_r. Qed.

Global Instance effects_grow_trans : Transitive effects_grow.
Proof.
  intros s1 s2 s3 [d1 H1] [d2 H2]. exists (d1 ++ d2).
  by rewrite H2, H1, app_assoc.
Qed.

Lemma pass_effects_grow tp acc s out :
  pass_outcome tp acc s out → effects_grow s out.1.
Proof.
  intros [?|?|l p rest ak ?|l p rest ak ?]; simpl; try reflexivity.
  - exists []. by rewrite app_nil_r.
  - exists []. by rewrite app_nil_r.
  - by eexists.
Qed.

Lemma passes_effects_grow (xs : list TopicPartition) acc s :
  effects_grow s (for_each xs commit_body acc s).1.
Proof.
  apply (for_each_preserves effects_grow). intros tp acc' s'.
  eapply pass_effects_grow, commit_body_outcome.
Qed.



(** X5.  When every ack list is empty, [maybe_commit] returns false and
    changes nothing at all. *)
Theorem maybe_commit_nothing_acked s :
  Forall (λ entry, entry.2 = []) (_acked s) →
  maybe_commit s = (s, Returned false).
Proof.
  intros Hempty. rewrite maybe_commit_unfold.
  assert (∀ tp, tp ∈ dict_keys (_acked s) → dict_get tp (_acked s) = Some [])
    as Hget.
  { induction Hempty as [|[tp' l'] d Hl' Hd IH]; intros tp.
    - by intros ?%elem_of_nil.
    - simpl in *. subst l'. destruct (decide (tp = tp')); [done|].
      intros [?|?]%elem_of_cons; [done|]. by apply IH. }
  generalize false.
  induction (dict_keys (_acked s)) as [|x xs IH]; intros acc; [done|].
  rewrite for_each_cons. unfold commit_body at 1. run.
  rewrite new_offset_empty by (apply Hget; left). simpl.
  apply IH. intros tp Htp. apply Hget. by right.
Qed.
End never.

(** ** The pass that commits *)

Section commits.
Import transport props.
Context `{ConsumerDriver}.
Implicit Types (s : Consumer) (tp : TopicPartition).

(** Once a pass has committed, the loop returns true if it returns. *)
Lemma passes_from_true (xs : list TopicPartition) s s' (b : bool) :
  for_each xs commit_body true s = (s', Returned b) → b = true.
Proof.
  revert s. induction xs as [|x xs IH]; intros s; [by intros [= _ <-]|].
  rewrite for_each_cons.
  pose proof (commit_body_outcome x true s) as Hpass.
  destruct (commit_body x true s) as [s1 [acc1|e]]; [|done].
  remember (s1, Returned acc1) as out eqn:Hout.
  destruct Hpass as [?|?|l p rest ak ?|l p rest ak ?];
    injection Hout as <- Hacc; try (subst acc1; by apply IH).
  destruct (_commit _ (driver s)) as [? [[]|?]]; [|done].
  injection Hacc as <-. apply IH.
Qed.

(** How [maybe_commit] gets to a tracked topic-partition: the loop raises
    before it, or it makes the pass on it, in a consumer in which nothing
    has happened to it yet, and then raises there or goes on with the
    others. *)
Lemma maybe_commit_reaches s tp :
  dict_wf (_acked s) → tp ∈ dict_keys (_acked s) →
  (∃ e, (maybe_commit s).2 = Raised e ∧ untouched tp s (maybe_commit s).1) ∨
  (∃ s1 acc1 out,
     untouched tp s s1 ∧ pass_outcome tp acc1 s1 out ∧
     ((∃ e, out.2 = Raised e ∧ maybe_commit s = out) ∨
      (∃ acc2, out.2 = Returned acc2 ∧
               untouched tp out.1 (maybe_commit s).1 ∧
               (acc2 = true →
                ∀ b, (maybe_commit s).2 = Returned b → b = true)))).
Proof.
  intros Hwf Hin. rewrite maybe_commit_unfold.
  apply list_elem_of_split in Hin as (xs1 & xs2 & Hkeys).
  unfold dict_wf in Hwf. rewrite Hkeys in Hwf |- *.
  apply NoDup_app in Hwf as (_ & Hnot1 & [Hnot2 _]%NoDup_cons).
  assert (tp ∉ xs1) as Hnot1' by (intros Hx; apply (Hnot1 _ Hx); left).
  rewrite for_each_app.
  pose proof (passes_untouched tp xs1 false s Hnot1') as Hpre.
  destruct (for_each xs1 commit_body false s) as [s1 [acc1|e1]];
    simpl in Hpre; [|left; by exists e1].
  right. exists s1, acc1, (commit_body tp acc1 s1).
  split_and!; [done|apply commit_body_outcome|].
  rewrite for_each_cons.
  pose proof (passes_untouched tp xs2) as Hpost.
  destruct (commit_body tp acc1 s1) as [s2 [acc2|e2]]; simpl.
  - right. exists acc2. split_and!; [done|by apply Hpost|].
    intros -> b. specialize (passes_from_true xs2 s2).
    destruct (for_each xs2 commit_body true s2) as [s3 [b'|e]]; simpl.
    + intros Hb [= <-]. by eapply Hb.
    + done.
  - left. by exists e2.
Qed.

(** The pass on [tp] itself when the offset is to be committed. *)
Lemma pass_self_commit tp acc s l p rest ak out :
  dict_get tp (_acked s) = Some l → l ≠ [] →
  committable_prefix l p → last p = Some ak → l = p ++ rest →
  _should_commit s tp ak = true →
  pass_outcome tp acc s out →
  out.1 = committed_state tp rest ak s ∧
  ∀ acc2, out.2 = Returned acc2 → acc2 = true.
Proof.
  intros Hget Hne Hp Hlast Happ Hshould
    [Hget'|Hget'|l' p' rest' ak' Hget' Hne' Hp' Hlast' Happ' Hshould'
    |l' p' rest' ak' Hget' Hne' Hp' Hlast' Happ' Hshould'];
    try congruence.
  all: assert (l' = l) as -> by congruence.
  all: assert (p' = p) as -> by by eapply committable_prefix_unique.
  all: assert (rest' = rest) as ->
         by (rewrite Happ in Happ'; by apply app_inv_head in Happ').
  all: assert (ak' = ak) as -> by congruence.
  - congruence.
  - simpl. split; [done|]. intros acc2.
    destruct (_commit _ (driver s)) as [? [[]|?]]; simpl; congruence.
Qed.

(** X7.  In [maybe_commit], on a tracked topic-partition whose ack list is
    not empty and whose offset [ak], the end of the committable prefix, is
    to be committed: whenever the call returns, it returns true,
    [CurrentOffset(tp)] is [ak], which is above the value it had when it
    had one, the prefix has left the ack list, and exactly one driver
    commit was made for [tp], with [ak] and the metadata of its topic. *)
Theorem maybe_commit_commits_prefix s tp l :
  dict_wf (_acked s) → dict_get tp (_acked s) = Some l → l ≠ [] →
  ∃ p rest ak,
    committable_prefix l p ∧ last p = Some ak ∧ l = p ++ rest ∧
    (_should_commit s tp ak = true →
     ∀ s' b, maybe_commit s = (s', Returned b) →
       b = true ∧
       _current_offset s' !! tp = Some ak ∧
       (∀ current, _current_offset s !! tp = Some current → current < ak) ∧
       dict_get tp (_acked s') = Some rest ∧
       commits_to tp (effects s') =
         commits_to tp (effects s) ++
           [DriverCommit
              [(tp, _new_offsetandmetadata ak (_get_topic_meta (topic tp)))]]).
Proof.
  intros Hwf Hget Hne.
  destruct (new_offset_nonempty s tp l Hget Hne)
    as (p & rest & ak & Hp & Hlast & Happ & _).
  exists p, rest, ak. split_and!; [done..|].
  intros Hshould s' b Hrun.
  assert (∀ current, _current_offset s !! tp = Some current → current < ak)
    as Habove.
  { intros c Hc.
    apply should_commit_true in Hshould as [Hnone|(c' & Hc' & _ & Hlt)];
      [congruence|]. assert (c = c') by congruence. lia. }
  destruct (maybe_commit_reaches s tp Hwf (dict_get_Some_key _ _ _ Hget))
    as [(e & He & _)|(s1 & acc1 & out & Hpre & Hpass & Hrest)].
  { rewrite Hrun in He. done. }
  eapply (pass_self_commit tp acc1 s1 l p rest ak) in Hpass
    as [Hout Htrue]; [|by rewrite (proj1 Hpre)|done..|];
    [|by rewrite (should_commit_untouched _ _ _ ak Hpre)].
  destruct Hrest as [(e & He & Heq)|(acc2 & Hacc2 & Hpost & Hb)].
  { rewrite Hrun in Heq. rewrite <- Heq in He. done. }
  rewrite Hrun in Hpost, Hb. simpl in Hpost, Hb.
  destruct Hpre as (_ & _ & d1 & Hd1 & Hq1).
  destruct Hpost as (Hacked & Hcur & d2 & Hd2 & Hq2).
  rewrite Hout in Hacked, Hcur, Hd2. simpl in Hacked, Hcur, Hd2.
  split_and!.
  - apply Hb; [by eapply Htrue | done].
  - by rewrite Hcur, lookup_insert_eq.
  - done.
  - by rewrite Hacked, dict_get_set_eq.
  - rewrite Hd2, Hd1. unfold commits_to in *.
    rewrite !List.filter_app, Hq1, Hq2, !app_nil_r. simpl.
    rewrite bool_decide_eq_true_2; [done|]. simpl. left.
Qed.
End commits.

(** ** Runs, one call at a time *)

Section dict_more.
Context {K V : Type} `{EqDecision K}.
Implicit Types (d : list (K * V)) (k : K) (v : V).

Lemma dict_set_set d k v v' : dict_set k v' (dict_set k v d) = dict_set k v' d.
Proof.
  induction d as [|[k1 v1] d IH]; simpl.
  - by rewrite decide_True.
  - destruct (decide (k = k1)) as [->|Hne]; simpl.
    + by rewrite decide_True.
    + rewrite decide_False by done. by rewrite IH.
Qed.

Lemma dict_set_same d k v : dict_get k d = Some v → dict_set k v d = d.
Proof.
  induction d as [|[k1 v1] d IH]; simpl; [done|].
  destruct (decide (k = k1)) as [->|Hne].
  - by intros [= ->].
  - intros Hget. by rewrite IH.
Qed.
End dict_more.

Section enumerate.
Import transport props.
Context `{ConsumerDriver}.
Implicit Types (s : Consumer) (tp : TopicPartition).

Lemma consecutive_numbers_cons (a : Z) (l : list Z) :
  consecutive_numbers (a :: l) =
    match head l, consecutive_numbers l with
    | Some b, run :: runs =>
        if decide (b = a + 1) then (a :: run) :: runs
        else [a] :: run :: runs
    | _, _ => [[a]]
    end.
Proof. reflexivity. Qed.

Lemma consecutive_numbers_nil_inv (l : list Z) :
  consecutive_numbers l = [] → l = [].
Proof.
  destruct l as [|a l]; [done|]. rewrite consecutive_numbers_cons.
  destruct (head l), (consecutive_numbers l); try done. by case_decide.
Qed.

(** The first run is a prefix of the sequence, and the other runs are the
    runs of what follows it. *)
Lemma consecutive_numbers_split (l r : list Z) (runs : list (list Z)) :
  consecutive_numbers l = r :: runs →
  r ≠ [] ∧ l = r ++ drop (length r) l ∧
  consecutive_numbers (drop (length r) l) = runs.
Proof.
  revert r runs. induction l as [|a l IH]; intros r runs; [done|].
  rewrite consecutive_numbers_cons.
  destruct l as [|b l]; [by intros [= <- <-]|].
  destruct (consecutive_numbers (b :: l)) as [|run runs'] eqn:Hruns.
  { by apply consecutive_numbers_nil_inv in Hruns. }
  destruct (IH run runs' eq_refl) as (Hne & Happ & Hrest).
  cbn [head]. case_decide as Hb.
  - intros [= <- <-]. split_and!; [done| |done].
    cbn [length drop app]. by rewrite <- Happ.
  - intros [= <- <-]. by split_and!.
Qed.

(** One call of [_new_offset] takes the first run off the ack list and
    returns its last element. *)
Lemma new_offset_first_run s tp (l r : list Z) (runs : list (list Z)) :
  dict_get tp (_acked s) = Some l → consecutive_numbers l = r :: runs →
  _new_offset tp s =
    (set_acked (dict_set tp (drop (length r) l) (_acked s)) s,
     Returned (last r)).
Proof.
  intros Hget Hruns.
  destruct (consecutive_numbers_split l r runs Hruns) as (Hne & _ & _).
  destruct (last_is_Some r Hne) as [ak Hlast].
  unfold _new_offset. run. rewrite (acked_getitem_present _ _ _ Hget).
  assert (bool_of_list l = true) as ->.
  { destruct l; [|done]. by destruct r. }
  rewrite Hruns. simpl. unfold last_item. by rewrite Hlast.
Qed.

(** X8.  Successive calls of [_new_offset] hand out the runs of the ack
    list one by one: as many calls as the list has runs of consecutive
    offsets return the last offset of each run, in order, and leave the
    ack list empty.  A gap holds back the offsets after it for one call
    only. *)
Theorem new_offset_enumerates_runs s tp (l : list Z) :
  dict_get tp (_acked s) = Some l →
  new_offset_times (length (consecutive_numbers l)) tp s =
    (set_acked (dict_set tp [] (_acked s)) s,
     Returned (last <$> consecutive_numbers l)).
Proof.
  remember (consecutive_numbers l) as runs eqn:Hruns.
  revert l s Hruns. induction runs as [|r runs IH]; intros l s Hruns Hget.
  - symmetry in Hruns. apply consecutive_numbers_nil_inv in Hruns as ->.
    simpl. by rewrite (dict_set_same _ _ _ Hget), set_acked_same.
  - symmetry in Hruns.
    destruct (consecutive_numbers_split l r runs Hruns) as (_ & _ & Hrest).
    cbn [length new_offset_times]. run.
    rewrite (new_offset_first_run s tp l r runs Hget Hruns).
    rewrite (IH (drop (length r) l)); [|done|by simpl; rewrite dict_get_set_eq].
    simpl. by rewrite dict_set_set.
Qed.

(** The flag that decides, and what follows from it. *)
Lemma on_message_ready_flag s (ref : MessageRef) :
  let flag := default (autoack s) (_autoack s !! ByTP (ref_tp ref)) in
  (on_message_ready ref s).2 = Returned tt ∧
  _autoack (on_message_ready ref s).1 !! ByTP (ref_tp ref) = Some flag ∧
  _current_offset (on_message_ready ref s).1 = _current_offset s ∧
  _recently_acked (on_message_ready ref s).1 =
    _recently_acked s ++
      (if flag then [(ref_tp ref, ref_offset ref)] else []) ∧
  if flag
  then dict_get (ref_tp ref) (_acked (on_message_ready ref s).1) =
         Some (sort (default [] (dict_get (ref_tp ref) (_acked s)) ++
                     [ref_offset ref]))
  else _acked (on_message_ready ref s).1 = _acked s.
Proof.
  rewrite on_message_ready_unfold. cbv zeta.
  destruct (_autoack s !! ByTP (ref_tp ref)) as [flag|] eqn:Hflag; simpl.
  - destruct flag; simpl.
    + rewrite ack_unfold. simpl. split_and!; try done. apply dict_get_set_eq.
    + by rewrite app_nil_r.
  - destruct (autoack s) eqn:Hdefault; simpl.
    + rewrite ack_unfold. simpl. rewrite lookup_insert_eq, ?Hdefault.
      split_and!; try done. apply dict_get_set_eq.
    + by rewrite app_nil_r, lookup_insert_eq, ?Hdefault.
Qed.

(** X10.  What [on_message_ready] does depends on the flag stored in
    [_autoack] under the topic-partition of the reference, or on the
    default of the consumer when nothing is stored there: with the flag on
    it acks the offset of the reference, with the flag off it acks nothing
    and leaves the ack lists and [CurrentOffset] alone.  Either way the
    flag is stored under the topic-partition afterwards. *)
Theorem on_message_ready_by_partition_flag s (ref : MessageRef) :
  let flag := default (autoack s) (_autoack s !! ByTP (ref_tp ref)) in
  (on_message_ready ref s).2 = Returned tt ∧
  _autoack (on_message_ready ref s).1 !! ByTP (ref_tp ref) = Some flag ∧
  _current_offset (on_message_ready ref s).1 = _current_offset s ∧
  _recently_acked (on_message_ready ref s).1 =
    _recently_acked s ++
      (if flag then [(ref_tp ref, ref_offset ref)] else []) ∧
  if flag
  then dict_get (ref_tp ref) (_acked (on_message_ready ref s).1) =
         Some (sort (default [] (dict_get (ref_tp ref) (_acked s)) ++
                     [ref_offset ref]))
  else _acked (on_message_ready ref s).1 = _acked s.
Proof. apply on_message_ready_flag. Qed.

(** X11.  Tracking and release fit together: when autoack is on for the
    topic-partition of a message, the reference that [track_message(message,
    offset)] puts last in [DirtyMessages] carries that topic-partition and
    offset, and [on_message_ready] on it puts the offset into the ack list
    of the topic-partition and reports the pair to [_recently_acked]. *)
Theorem tracked_message_is_acked_on_release s (message : Message)
    (offset : Z) :
  let tp := mkTopicPartition (msg_topic message) (msg_partition message) in
  let tracked := (track_message message offset s).1 in
  default (autoack s) (_autoack s !! ByTP tp) = true →
  ∃ ref l,
    last (_dirty_messages tracked) = Some ref ∧
    ref_tp ref = tp ∧ ref_offset ref = offset ∧ ref_consumer_id ref = id s ∧
    dict_get tp (_acked (on_message_ready ref tracked).1) = Some l ∧
    offset ∈ l ∧
    last (_recently_acked (on_message_ready ref tracked).1)
      = Some (tp, offset).
Proof.
  intros tp tracked Hflag.
  set (ref := mkMessageRef message tp offset (id s)).
  destruct (on_message_ready_flag tracked ref)
    as (_ & _ & _ & Hlog & Hacked).
  assert (default (autoack tracked) (_autoack tracked !! ByTP (ref_tp ref))
          = true) as Hflag' by exact Hflag.
  rewrite Hflag' in Hlog, Hacked.
  exists ref, (sort (default [] (dict_get tp (_acked tracked)) ++ [offset])).
  split_and!; try done.
  - unfold tracked. rewrite track_message_unfold. simpl. by rewrite last_snoc.
  - rewrite sort_Permutation, elem_of_app, list_elem_of_singleton. by right.
  - rewrite Hlog. by rewrite last_snoc.
Qed.
End enumerate.

(** ** Acks in any order *)

Section ack_order.
Import transport props.
Context `{ConsumerDriver}.
Implicit Types (s : Consumer) (tp : TopicPartition).

(** The ack list after a row of acks on one topic-partition. *)
Lemma acks_acked s tp (o : Z) (os : list Z) :
  ∃ l, dict_get tp (_acked (session (CallAck tp <$> o :: os) s)) = Some l ∧
       Sorted Z.le l ∧
       l ≡ₚ default [] (dict_get tp (_acked s)) ++ o :: os.
Proof.
  revert o s. induction os as [|o' os IH]; intros o s.
  - simpl. rewrite ack_acked_same. eexists. split_and!; [done| |].
    + apply sort_Sorted.
    + apply sort_Permutation.
  - destruct (IH o' (ack tp o s).1) as (l & Hl & Hsorted & Hperm).
    exists l. split_and!; [exact Hl|done|].
    rewrite Hperm, ack_acked_same. simpl. rewrite sort_Permutation.
    by rewrite <- app_assoc.
Qed.

(** X12.  Acks are accepted in any order: after the offsets [os1] were
    acked on a topic-partition, one call each, its ack list is the list it
    had before together with [os1], sorted, and it is the same list after
    acks of the same offsets in any other order [os2]. *)
Theorem acks_in_any_order s tp (os1 os2 : list Z) :
  os1 ≠ [] → os1 ≡ₚ os2 →
  dict_get tp (_acked (session (CallAck tp <$> os1) s))
    = Some (sort (default [] (dict_get tp (_acked s)) ++ os1)) ∧
  dict_get tp (_acked (session (CallAck tp <$> os2) s))
    = dict_get tp (_acked (session (CallAck tp <$> os1) s)).
Proof.
  intros Hne Hperm.
  assert (∀ os, os ≡ₚ os1 →
            dict_get tp (_acked (session (CallAck tp <$> os) s))
              = Some (sort (default [] (dict_get tp (_acked s)) ++ os1)))
    as Hany.
  { intros os Hos. destruct os as [|o os].
    - apply Permutation_nil_l in Hos. done.
    - destruct (acks_acked s tp o os) as (l & -> & Hsorted & Hl).
      f_equal. apply (Sorted_unique Z.le); [done|apply sort_Sorted|].
      by rewrite Hl, sort_Permutation, Hos. }
  split; [by apply Hany|]. rewrite !Hany; done.
Qed.
End ack_order.

(** ** Missing keys *)

Section missing.
Import tables.
Context {K V : Type} `{Countable K}.
Implicit Types (w : World (K := K) (V := V)) (key : K) (value : V).

(** X13.  [__missing__] on a bound table: with a default factory, the
    value it makes is stored under the key through the table's own
    assignment, so that the changelog record is pending when the value is
    returned; without one, [KeyError] is raised and nothing changes. *)
Theorem missing_key_uses_default w t key :
  changelog_topic (table w) = Some t →
  match default (table w) with
  | Some value =>
      (__missing__ key w).2 = Returned value ∧
      data (table (__missing__ key w).1) = <[key := value]> (data (table w)) ∧
      pending (app (__missing__ key w).1)
        = pending (app w) ++ [(t, key, Some value)]
  | None => __missing__ key w = (w, Raised KeyError)
  end.
Proof.
  intros Hbound. unfold __missing__. run.
  destruct (default (table w)) as [value|]; [|done].
  unfold setitem. run. rewrite (on_key_set_bound _ t) by done. by split_and!.
Qed.
End missing.

(** ** The extra properties, run *)

Section extra_runs.
Import transport props scripted.

Lemma acked_always_sorted_witness : Sorted Z.le [3; 4; 9].
Proof.
  apply (@acked_always_sorted scripted_driver
           [CallAck t0 5; CallMaybeCommit; CallAck t0 3; CallAck t0 4;
            CallAck t0 9]
           0 true (mkBroker [] []) t0 [3; 4; 9]).
  reflexivity.
Defined.

Lemma current_offset_was_acked_witness :
  (t0, 5) ∈ _recently_acked late_acks.
Proof.
  apply (@current_offset_was_acked scripted_driver
           [CallAck t0 5; CallMaybeCommit; CallAck t0 3; CallAck t0 4;
            CallAck t0 9]
           0 true (mkBroker [] []) t0 5).
  reflexivity.
Defined.


Lemma maybe_commit_nothing_acked_witness :
  maybe_commit drained = (drained, Returned false).
Proof.
  apply (maybe_commit_nothing_acked drained).
  repeat constructor.
Defined.

Lemma maybe_commit_commits_prefix_witness :
  ∃ p rest ak,
    committable_prefix [1; 2; 3] p ∧ last p = Some ak ∧
    [1; 2; 3] = p ++ rest ∧
    (_should_commit three_acked t0 ak = true →
     ∀ s' b, maybe_commit three_acked = (s', Returned b) →
       b = true ∧
       _current_offset s' !! t0 = Some ak ∧
       (∀ current, _current_offset three_acked !! t0 = Some current →
                   current < ak) ∧
       dict_get t0 (_acked s') = Some rest ∧
       commits_to t0 (effects s') =
         commits_to t0 (effects three_acked) ++
           [DriverCommit
              [(t0, _new_offsetandmetadata ak (_get_topic_meta (topic t0)))]]).
Proof.
  apply (maybe_commit_commits_prefix three_acked t0 [1; 2; 3]).
  - change (NoDup [t0]). apply NoDup_singleton.
  - reflexivity.
  - discriminate.
Defined.

Lemma new_offset_enumerates_runs_witness :
  new_offset_times (length (consecutive_numbers [34; 35; 36; 40; 41])) t0
    with_gap
    = (set_acked (dict_set t0 [] (_acked with_gap)) with_gap,
       Returned (last <$> consecutive_numbers [34; 35; 36; 40; 41])).
Proof.
  apply (new_offset_enumerates_runs with_gap t0 [34; 35; 36; 40; 41]).
  reflexivity.
Defined.

(** The ack list with the gap, call by call: 36, then 41. *)
Example gap_is_passed_by_the_next_call :
  (new_offset_times 2 t0 with_gap).2 = Returned [Some 36; Some 41] ∧
  _acked (new_offset_times 2 t0 with_gap).1 = [(t0, [])].
Proof. split; reflexivity. Qed.

Lemma tracked_message_is_acked_on_release_witness :
  ∃ ref l,
    last (_dirty_messages (track_message message_t 7 (fresh [])).1)
      = Some ref ∧
    ref_tp ref = mkTopicPartition "t" 0 ∧ ref_offset ref = 7 ∧
    ref_consumer_id ref = id (fresh []) ∧
    dict_get (mkTopicPartition "t" 0)
      (_acked (on_message_ready ref
                 (track_message message_t 7 (fresh [])).1).1) = Some l ∧
    7 ∈ l ∧
    last (_recently_acked
            (on_message_ready ref (track_message message_t 7 (fresh [])).1).1)
      = Some (mkTopicPartition "t" 0, 7).
Proof.
  apply (tracked_message_is_acked_on_release (fresh []) message_t 7).
  reflexivity.
Defined.

Lemma acks_in_any_order_witness :
  dict_get t0 (_acked (session (CallAck t0 <$> [3; 1; 2]) (fresh [])))
    = Some (sort (default [] (dict_get t0 (_acked (fresh []))) ++ [3; 1; 2])) ∧
  dict_get t0 (_acked (session (CallAck t0 <$> [1; 2; 3]) (fresh [])))
    = dict_get t0 (_acked (session (CallAck t0 <$> [3; 1; 2]) (fresh []))).
Proof.
  apply (acks_in_any_order (fresh []) t0 [3; 1; 2] [1; 2; 3]).
  - discriminate.
  - exact (Permutation_cons_append [1; 2] 3).
Defined.

End extra_runs.

Section extra_table_runs.
Import tables counters.

Lemma missing_key_uses_default_witness :
  (__missing__ "z" bound).2 = Returned 0 ∧
  data (table (__missing__ "z" bound).1) = <["z" := 0]> (data (table bound)) ∧
  pending (app (__missing__ "z" bound).1)
    = pending (app bound) ++ [(mkTopic "shop-clicks-changelog", "z", Some 0)].
Proof.
  apply (missing_key_uses_default bound (mkTopic "shop-clicks-changelog") "z").
  reflexivity.
Defined.
End extra_table_runs.

(** ** When the commit pass raises *)

Section raised.
Import transport props.
Context `{ConsumerDriver}.
Implicit Types (s : Consumer) (tp : TopicPartition).

(** A pass raises only out of the driver commit it makes. *)
Lemma pass_raised tp acc s s' e :
  pass_outcome tp acc s (s', Raised e) →
  ∃ rest ak,
    s' = committed_state tp rest ak s ∧
    _should_commit s tp ak = true ∧
    _commit [(tp, _new_offsetandmetadata ak (_get_topic_meta (topic tp)))]
      (driver s) = (driver s', Raised e).
Proof.
  intros Hpass. remember (s', Raised e) as out eqn:Hout.
  destruct Hpass as [?|?|?|l p rest ak Hget Hne Hp Hlast Happ Hshould];
    try discriminate.
  injection Hout as Hs' He. exists rest, ak.
  destruct (_commit _ (driver s)) as [session [[]|e']] eqn:Hcommit;
    simpl in He; [done|]. injection He as ->.
  unfold committed_state in Hs' |- *. rewrite Hcommit in Hs' |- *.
  subst s'. by split_and!.
Qed.

(** A loop that raises does so out of the driver commit of one of its
    topic-partitions: that commit is the last outside call, the driver
    raised the exception, and [CurrentOffset] of the topic-partition is
    the offset that was refused. *)
Lemma passes_raised_by_driver (xs : list TopicPartition) acc s s' e :
  for_each xs commit_body acc s = (s', Raised e) →
  ∃ xs1 tp xs2 offset session delta,
    xs = xs1 ++ tp :: xs2 ∧
    _commit [(tp, _new_offsetandmetadata offset (_get_topic_meta (topic tp)))]
      session = (driver s', Raised e) ∧
    effects s' =
      effects s ++ delta ++
        [DriverCommit
           [(tp, _new_offsetandmetadata offset (_get_topic_meta (topic tp)))]] ∧
    _current_offset s' !! tp = Some offset.
Proof.
  intros (xs1 & tp & xs2 & acc1 & s1 & Hxs & Hpre & Hbody)%for_each_raised.
  pose proof (passes_effects_grow xs1 acc s) as [delta Hdelta].
  rewrite Hpre in Hdelta. simpl in Hdelta.
  pose proof (commit_body_outcome tp acc1 s1) as Hpass. rewrite Hbody in Hpass.
  apply pass_raised in Hpass as (rest & ak & Hs' & _ & Hcommit).
  exists xs1, tp, xs2, ak, (driver s1), delta. split_and!; [done|done| |].
  - rewrite Hs'. simpl. by rewrite Hdelta, <- app_assoc.
  - rewrite Hs'. simpl. by rewrite lookup_insert_eq.
Qed.

(** C7.  In [maybe_commit], on a tracked topic-partition [tp] whose ack
    list [l] is not empty, the committable prefix [p] is taken off the ack
    list, also when [_should_commit] is false for the offset [ak] it ends
    in: the ack list of [tp] is [rest] afterwards, unless the driver
    commit of a topic-partition that the loop visits before [tp] raised,
    in which case that refused commit is the last outside call,
    [maybe_commit] raises what the driver raised and the ack list of [tp]
    is still [l].  When [_should_commit] is false, [CurrentOffset(tp)]
    stays as it was and no driver commit is issued for [tp], so the
    offsets of [p] leave the ack list uncommitted. *)
Theorem maybe_commit_drops_prefix_uncommitted s tp l :
  dict_wf (_acked s) → dict_get tp (_acked s) = Some l → l ≠ [] →
  ∃ p rest ak,
    committable_prefix l p ∧ last p = Some ak ∧ l = p ++ rest ∧
    (dict_get tp (_acked (maybe_commit s).1) = Some rest ∨
     ∃ earlier later tp' offset session delta e,
       dict_keys (_acked s) = earlier ++ tp :: later ∧ tp' ∈ earlier ∧
       (maybe_commit s).2 = Raised e ∧
       _commit
         [(tp', _new_offsetandmetadata offset (_get_topic_meta (topic tp')))]
         session = (driver (maybe_commit s).1, Raised e) ∧
       effects (maybe_commit s).1 =
         effects s ++ delta ++
           [DriverCommit
              [(tp', _new_offsetandmetadata offset
                       (_get_topic_meta (topic tp')))]] ∧
       dict_get tp (_acked (maybe_commit s).1) = Some l) ∧
    (_should_commit s tp ak = false →
     _current_offset (maybe_commit s).1 !! tp = _current_offset s !! tp ∧
     no_commit_for tp s (maybe_commit s).1).
Proof.
  intros Hwf Hget Hne.
  destruct (new_offset_nonempty s tp l Hget Hne)
    as (p & rest & ak & Hp & Hlast & Happ & _).
  exists p, rest, ak. split_and!; [done..| |].
  all: pose proof (dict_get_Some_key _ _ _ Hget) as Hin.
  all: apply list_elem_of_split in Hin as (xs1 & xs2 & Hkeys).
  all: unfold dict_wf in Hwf; rewrite Hkeys in Hwf.
  all: apply NoDup_app in Hwf as (_ & Hnot1 & [Hnot2 _]%NoDup_cons).
  all: assert (tp ∉ xs1) as Hnot1' by (intros Hx; apply (Hnot1 _ Hx); left).
  all: pose proof (maybe_commit_unfold s) as Hrun.
  all: rewrite Hkeys, for_each_app in Hrun.
  all: pose proof (passes_untouched tp xs1 false s Hnot1') as Hpre.
  all: destruct (for_each xs1 commit_body false s) as [s1 [acc1|e1]] eqn:Hxs1;
         simpl in Hpre.
  all: try (rewrite for_each_cons in Hrun;
            pose proof (commit_body_outcome tp acc1 s1) as Hpass;
            eapply (pass_self tp acc1 s1 l p rest ak) in Hpass as [Hrest Hskip];
            [|by rewrite (proj1 Hpre)|done..];
            rewrite (should_commit_untouched _ _ _ ak Hpre) in Hskip;
            destruct (commit_body tp acc1 s1) as [s2 [acc2|e2]];
            simpl in Hrest, Hskip;
            try (pose proof (passes_untouched tp xs2 acc2 s2 Hnot2) as Hpost;
                 rewrite <- Hrun in Hpost;
                 destruct Hpost as (Hpost1 & Hpost2 & Hpost3))).
  - left. by rewrite Hpost1.
  - left. by rewrite Hrun.
  - right. apply passes_raised_by_driver in Hxs1
      as (ys1 & tp' & ys2 & offset & session & delta & Hys & Hcommit
          & Heffects & _).
    exists xs1, xs2, tp', offset, session, delta, e1. rewrite Hrun. simpl.
    split_and!; try done.
    + rewrite Hys, elem_of_app. right. left.
    + by rewrite (proj1 Hpre).
  - intros Hshould. destruct (Hskip Hshould) as (_ & Hcur & Hquiet).
    destruct Hpre as (_ & Hcur1 & Hquiet1). split.
    + by rewrite Hpost2, Hcur.
    + transitivity s1; [done|]. by transitivity s2.
  - intros Hshould. by destruct (Hskip Hshould) as ([=] & _).
  - intros _. rewrite Hrun. simpl. by destruct Hpre as (_ & ? & ?).
Qed.

End raised.

Section raised_runs.
Import transport props scripted.

Lemma maybe_commit_drops_prefix_uncommitted_witness :
  ∃ p ak,
    committable_prefix [3; 4; 9] p ∧ last p = Some ak ∧
    [3; 4; 9] = p ++ [9] ∧
    _should_commit late_acks t0 ak = false ∧
    dict_get t0 (_acked (maybe_commit late_acks).1) = Some [9] ∧
    _current_offset (maybe_commit late_acks).1 !! t0
      = _current_offset late_acks !! t0 ∧
    no_commit_for t0 late_acks (maybe_commit late_acks).1.
Proof.
  destruct (maybe_commit_drops_prefix_uncommitted late_acks t0 [3; 4; 9])
    as (p & rest & ak & Hp & Hlast & Happ & Hgone & Hskip).
  - change (NoDup [t0]). apply NoDup_singleton.
  - reflexivity.
  - discriminate.
  - assert (rest = [9]) as ->.
    { destruct Hgone as [Hrest|(? & ? & ? & ? & ? & ? & e & _ & _ & Hraised & _)].
      - vm_compute in Hrest. by injection Hrest.
      - vm_compute in Hraised. discriminate. }
    assert (p = [3; 4]) as ->
      by (apply (app_inv_tail [9]); symmetry; exact Happ).
    injection Hlast as <-.
    exists [3; 4], 4. split_and!; try done; by apply Hskip.
Defined.

End raised_runs.
